(** * hospitals: incremental synchronisation of a dataset catalogue

    A shallow embedding of [hospitals.ipynb] (a Python notebook exported as a
    script) and the properties of it that follow from the code.

    Conventions of the embedding.
    - A Python [str] is a [list ascii] inside the string functions and a
      [string] elsewhere.  The character classes of the regular expressions
      ([\W], [[a-z0-9]], [[A-Z]]) and [str.lower] are Python's on the code
      points 0..127; code points from 128 on are outside the modelled
      fragment.
    - A Python exception is a value of [exn]; a call that can raise returns a
      [result].
    - The two dictionaries the code works on ([dataset], [metadata]) are
      records; [metadata['last_run']] is a [gmap] from dataset id to a Python
      value, because the code stores [datetime] objects in it while
      [json.load] fills it with strings.
    - What the network, [pandas] and the file system answer during a run is
      a [World]; what the run changes (the shared dictionary, the metadata
      file, the download directory, the output) is a [State] passed along.
    - The worker threads of the executor are an interleaving: a task is cut
      into steps where it touches what the threads share, and a schedule
      names the thread that takes the next step. *)

From Stdlib Require Import Ascii String ZArith Lia.
From stdpp Require Import gmap strings list.

Local Open Scope char_scope.

(** ** Characters *)

Module Chars.

Definition code (c : ascii) : nat := nat_of_ascii c.

Definition between (lo hi : nat) (c : ascii) : bool :=
  (lo <=? code c)%nat && (code c <=? hi)%nat.

(** [[a-z]], [[A-Z]], [[0-9]]. *)
Definition is_lower : ascii → bool := between 97 122.
Definition is_upper : ascii → bool := between 65 90.
Definition is_digit : ascii → bool := between 48 57.

(** [[a-z0-9]], the first group of the camelCase pattern. *)
Definition is_lower_or_digit (c : ascii) : bool := is_lower c || is_digit c.

(** [\w] on ASCII: letters, digits and the underscore. *)
Definition is_word (c : ascii) : bool :=
  is_lower c || is_upper c || is_digit c || bool_decide (c = "_").

(** Printable ASCII: space (32) to tilde (126). *)
Definition is_printable : ascii → bool := between 32 126.

(** [str.lower] on one character. *)
Definition lower_char (c : ascii) : ascii :=
  if is_upper c then ascii_of_nat (code c + 32) else c.

Definition is_canonical_char (c : ascii) : bool :=
  is_lower c || is_digit c || bool_decide (c = "_").

End Chars.

Import Chars.

(** ** to_snake_case *)

(** [re.sub(r'([a-z0-9])([A-Z])', r'\1_\2', name)]: the scan goes left to
    right; a match takes two characters and the scan resumes after them. *)
Fixpoint sub_camel (name : list ascii) : list ascii :=
  match name with
  | a :: ((b :: rest) as tl) =>
      if is_lower_or_digit a && is_upper b
      then a :: "_" :: b :: sub_camel rest
      else a :: sub_camel tl
  | _ => name
  end.

(** [re.sub(r'\W+', '_', name)]: [in_run] says that the previous character
    was part of the run of non-word characters being replaced. *)
Fixpoint sub_nonword_from (in_run : bool) (name : list ascii) : list ascii :=
  match name with
  | [] => []
  | c :: tl =>
      if is_word c then c :: sub_nonword_from false tl
      else if in_run then sub_nonword_from true tl
      else "_" :: sub_nonword_from true tl
  end.

Definition sub_nonword : list ascii → list ascii := sub_nonword_from false.

(** [name.strip('_')], one end at a time. *)
Fixpoint lstrip_underscore (name : list ascii) : list ascii :=
  match name with
  | c :: tl => if bool_decide (c = "_") then lstrip_underscore tl else name
  | [] => []
  end.

Fixpoint rstrip_underscore (name : list ascii) : list ascii :=
  match name with
  | [] => []
  | c :: tl =>
      match rstrip_underscore tl with
      | [] => if bool_decide (c = "_") then [] else [c]
      | kept => c :: kept
      end
  end.

Definition strip_underscore (name : list ascii) : list ascii :=
  rstrip_underscore (lstrip_underscore name).

Definition lower (name : list ascii) : list ascii := map lower_char name.

Definition snake (name : list ascii) : list ascii :=
  let name := sub_camel name in
  let name := sub_nonword name in
  lower (strip_underscore name).

Definition to_snake_case (name : string) : string :=
  string_of_list_ascii (snake (list_ascii_of_string name)).

(** A string of printable ASCII characters. *)
Definition printable (s : string) : Prop :=
  Forall (λ c, is_printable c = true) (list_ascii_of_string s).

(** Canonical column names, as the last line of [to_snake_case] leaves them:
    only lowercase letters, digits and underscores, no underscore at either
    end. *)
Definition canonical (name : list ascii) : Prop :=
  Forall (λ c, is_canonical_char c = true) name
  ∧ head name ≠ Some "_" ∧ last name ≠ Some "_".

(** ** Exceptions and results *)

(** The exceptions the script can end with.  [ConnectionError],
    [ParserError] and [OSError] stand for what [requests], [pandas] and the
    file system raise; the script has no [except] clause, so only the
    identity of an exception is kept. *)
Inductive exn : Type :=
  | TypeError | ValueError | KeyError | JSONDecodeError
  | ConnectionError | ParserError | OSError.

Inductive result (A : Type) : Type :=
  | Ok (a : A)
  | Raised (e : exn).
Arguments Ok {A} a.
Arguments Raised {A} e.

#[global] Instance result_ret : MRet result := λ A a, Ok a.

#[global] Instance result_bind : MBind result := λ A B k r,
  match r with
  | Ok a => k a
  | Raised e => Raised e
  end.

#[global] Instance exn_eq_dec : EqDecision exn.
Proof. solve_decision. Defined.

(** ** datetime *)

(** A naive [datetime.datetime]; [strptime] with this format leaves the
    microsecond at 0 and the time zone unset, so six fields remain. *)
Record datetime : Type := Datetime {
  year : Z; month : Z; day : Z;
  hour : Z; minute : Z; second : Z
}.

#[global] Instance datetime_eq_dec : EqDecision datetime.
Proof. solve_decision. Defined.

(** Comparison of naive datetimes: field by field, year first. *)
Definition then_cmp (c : comparison) (next : comparison) : comparison :=
  match c with Eq => next | _ => c end.

Definition datetime_cmp (a b : datetime) : comparison :=
  then_cmp (year a ?= year b)%Z
  (then_cmp (month a ?= month b)%Z
  (then_cmp (day a ?= day b)%Z
  (then_cmp (hour a ?= hour b)%Z
  (then_cmp (minute a ?= minute b)%Z
            (second a ?= second b)%Z)))).

(** [a] is a strictly later instant than [b]. *)
Definition later (a b : datetime) : Prop := datetime_cmp a b = Gt.

Definition is_leap (y : Z) : bool :=
  ((y mod 4 =? 0) && negb (y mod 100 =? 0) || (y mod 400 =? 0))%Z.

Definition days_in_month (y m : Z) : Z :=
  match m with
  | 2 => if is_leap y then 29 else 28
  | 4 | 6 | 9 | 11 => 30
  | _ => 31
  end%Z.

(** What the [datetime] constructor accepts (it raises [ValueError]
    otherwise). *)
Definition valid_datetime (d : datetime) : bool :=
  ((1 <=? year d) && (year d <=? 9999)
   && (1 <=? month d) && (month d <=? 12)
   && (1 <=? day d) && (day d <=? days_in_month (year d) (month d))
   && (hour d <=? 23) && (minute d <=? 59) && (second d <=? 59))%Z.

(** *** strptime(_, '%Y-%m-%dT%H:%M:%S')

    CPython turns the format into one regular expression, matched at the
    start of the string with IGNORECASE; each directive is a group of
    ordered alternatives:
<<
      %Y  \d\d\d\d                          %H  2[0-3]|[0-1]\d|\d
      %m  1[0-2]|0[1-9]|[1-9]               %M  [0-5]\d|\d
      %d  3[0-1]|[1-2]\d|0[1-9]|[1-9]| [1-9]  %S  6[0-1]|[0-5]\d|\d
>>
    Every group but the last is followed by a literal that is no digit, so
    taking the first alternative that matches is what the backtracking
    matcher does.  Text left after the seconds is an error. *)
Module Strptime.

Definition digit_val (c : ascii) : Z := Z.of_nat (code c) - 48.

Definition parser : Type := list ascii → option (Z * list ascii).

(** Two characters, of the classes [p1] and [p2], read as a number. *)
Definition two (p1 p2 : ascii → bool) : parser := λ s,
  match s with
  | a :: b :: rest =>
      if p1 a && p2 b then Some (10 * digit_val a + digit_val b, rest)%Z
      else None
  | _ => None
  end.

Definition one (p : ascii → bool) : parser := λ s,
  match s with
  | a :: rest => if p a then Some (digit_val a, rest) else None
  | _ => None
  end.

Definition orelse (p q : parser) : parser := λ s,
  match p s with
  | Some r => Some r
  | None => q s
  end.
Infix "|||" := orelse (at level 50, left associativity).

Definition char (c : ascii) : ascii → bool := λ a, bool_decide (a = c).

(** [\d\d\d\d] *)
Definition directive_Y : parser := λ s,
  match s with
  | a :: b :: c :: d :: rest =>
      if is_digit a && is_digit b && is_digit c && is_digit d
      then Some (1000 * digit_val a + 100 * digit_val b
                 + 10 * digit_val c + digit_val d, rest)%Z
      else None
  | _ => None
  end.

Definition directive_m : parser :=
  two (char "1") (between 48 50) ||| two (char "0") (between 49 57)
  ||| one (between 49 57).

Definition directive_d : parser :=
  two (char "3") (between 48 49) ||| two (between 49 50) is_digit
  ||| two (char "0") (between 49 57) ||| one (between 49 57)
  ||| (λ s, match s with
            | " " :: rest => one (between 49 57) rest
            | _ => None
            end).

Definition directive_H : parser :=
  two (char "2") (between 48 51) ||| two (between 48 49) is_digit
  ||| one is_digit.

Definition directive_M : parser :=
  two (between 48 53) is_digit ||| one is_digit.

Definition directive_S : parser :=
  two (char "6") (between 48 49) ||| two (between 48 53) is_digit
  ||| one is_digit.

(** A literal of the format; letters match in either case. *)
Definition literal (c : ascii) (s : list ascii) : option (list ascii) :=
  match s with
  | a :: rest => if bool_decide (lower_char a = lower_char c) then Some rest
                 else None
  | [] => None
  end.

Definition parse (s : list ascii) : option datetime :=
  '(year, s) ← directive_Y s; s ← literal "-" s;
  '(month, s) ← directive_m s; s ← literal "-" s;
  '(day, s) ← directive_d s; s ← literal "T" s;
  '(hour, s) ← directive_H s; s ← literal ":" s;
  '(minute, s) ← directive_M s; s ← literal ":" s;
  '(second, s) ← directive_S s;
  match s with
  | [] => let t := Datetime year month day hour minute second in
          if valid_datetime t then Some t else None
  | _ => None
  end.

End Strptime.

(** [str(d)] for a naive datetime without microseconds:
    [YYYY-MM-DD HH:MM:SS], with a space between date and time. *)
Definition digit_char (n : Z) : ascii :=
  ascii_of_nat (Z.to_nat (48 + n mod 10)).

Definition pad2 (n : Z) : list ascii :=
  [digit_char (n / 10); digit_char n].

Definition pad4 (n : Z) : list ascii :=
  [digit_char (n / 1000); digit_char (n / 100); digit_char (n / 10);
   digit_char n].

Definition str_datetime (d : datetime) : string :=
  string_of_list_ascii
    (pad4 (year d) ++ "-" :: pad2 (month d) ++ "-" :: pad2 (day d)
     ++ " " :: pad2 (hour d) ++ ":" :: pad2 (minute d)
     ++ ":" :: pad2 (second d)).

(** ** Python and JSON values *)

(** What a watermark can be on disk: a JSON scalar.  (Arrays, objects and
    numbers with a fraction are left out; in the comparison of
    [file_modified_since_last_run] they behave like the integers.) *)
Inductive json : Type :=
  | JNull | JBool (b : bool) | JNum (n : Z) | JStr (s : string).

(** What a watermark, or a dataset's [last_modified], can be in memory. *)
Inductive pyval : Type :=
  | PNone | PBool (b : bool) | PInt (n : Z) | PStr (s : string)
  | PDatetime (d : datetime).

(** [json.load] on a scalar. *)
Definition of_json (j : json) : pyval :=
  match j with
  | JNull => PNone
  | JBool b => PBool b
  | JNum n => PInt n
  | JStr s => PStr s
  end.

(** [json.dump(_, default=str)] on a scalar: the encoder calls [str] on what
    it cannot encode, here the datetimes. *)
Definition to_json (v : pyval) : json :=
  match v with
  | PNone => JNull
  | PBool b => JBool b
  | PInt n => JNum n
  | PStr s => JStr s
  | PDatetime d => JStr (str_datetime d)
  end.

(** [datetime.strptime(v, '%Y-%m-%dT%H:%M:%S')] *)
Definition strptime (v : pyval) : result datetime :=
  match v with
  | PStr s =>
      match Strptime.parse (list_ascii_of_string s) with
      | Some d => Ok d
      | None => Raised ValueError
      end
  | _ => Raised TypeError
  end.

(** [a > b] for a datetime [a]: defined against another datetime only. *)
Definition datetime_gt (a : datetime) (b : pyval) : result bool :=
  match b with
  | PDatetime b => Ok (bool_decide (datetime_cmp a b = Gt))
  | _ => Raised TypeError
  end.

(** ** The catalogue's datasets and the metadata *)

(** An item of the catalogue listing.  [id], [name] and [download_url] are
    strings; the key ['last_modified'] may be missing ([None]), and what it
    holds is kept as a Python value ([Some PNone] for a JSON [null]). *)
Record Dataset : Type := {
  id : string;
  name : string;
  last_modified : option pyval;
  download_url : string
}.

(** [dataset.get('last_modified')] (line 34): [None] for a missing key. *)
Definition get_last_modified (dataset : Dataset) : pyval :=
  default PNone (last_modified dataset).

(** [dataset['last_modified']] (line 70): [KeyError] for a missing key. *)
Definition getitem_last_modified (dataset : Dataset) : result pyval :=
  match last_modified dataset with
  | Some v => Ok v
  | None => Raised KeyError
  end.

(** The metadata dictionary: [last_run] is [None] when the dictionary has no
    such key. *)
Record Metadata : Type := { last_run : option (gmap string pyval) }.

(** The JSON document of the metadata file: an object, with or without the
    key ["last_run"].  (Other keys are carried along by the code and never
    read; they are left out.) *)
Record MetadataJson : Type := { json_last_run : option (gmap string json) }.

Definition file_modified_since_last_run
    (dataset : Dataset) (metadata : Metadata) : result bool :=
  let last_run := default ∅ (last_run metadata) in
  let dataset_id := id dataset in
  let dataset_last_modified := get_last_modified dataset in
  match last_run !! dataset_id with
  | Some last_download_time =>
      t ← strptime dataset_last_modified;
      datetime_gt t last_download_time
  | None => Ok true
  end.

(** [json.dump(metadata, f, default=str, indent=2)] followed by [json.load]
    of the same file, on the values: the text in between is the library's. *)
Definition json_dump (metadata : Metadata) : MetadataJson :=
  {| json_last_run :=
       (λ watermarks : gmap string pyval, to_json <$> watermarks)
         <$> last_run metadata |}.

Definition json_load (doc : MetadataJson) : Metadata :=
  {| last_run :=
       (λ watermarks : gmap string json, of_json <$> watermarks)
         <$> json_last_run doc |}.

(** ** Configuration values *)

Local Open Scope string_scope.

Definition DOWNLOAD_DIR : string := "./datasets".
Definition METADATA_FILE : string := "metadata.json".
Definition THEME : string := "Hospitals".

(** ** The theme filter *)

(** [sub in s] on strings. *)
Fixpoint startswith (s sub : list ascii) {struct sub} : bool :=
  match sub, s with
  | [], _ => true
  | a :: sub, b :: s => bool_decide (a = b) && startswith s sub
  | _ :: _, [] => false
  end.

Fixpoint str_in (sub s : list ascii) : bool :=
  startswith s sub
  || match s with
     | [] => false
     | _ :: tl => str_in sub tl
     end.

(** [theme.lower() in dataset['name'].lower()] *)
Definition matches_theme (theme : string) (dataset : Dataset) : bool :=
  str_in (lower (list_ascii_of_string theme))
         (lower (list_ascii_of_string (name dataset))).

(** [[dataset for dataset in datasets if THEME.lower() in
    dataset['name'].lower()]], with the theme as an argument. *)
Definition hospital_datasets (theme : string) (datasets : list Dataset)
    : list Dataset :=
  List.filter (matches_theme theme) datasets.

(** ** The world outside the script *)

Record Response : Type := { status_code : Z; content : string }.

(** A data frame: the header and the rows. *)
Record Table : Type := {
  columns : list string;
  rows : list (list string)
}.

(** What the network and the libraries answer during one run.
    - [catalog]: [requests.get(API_URL)], as the status code and what
      [response.json()['items']] gives;
    - [requests_get]: [requests.get(download_url)];
    - [read_csv]: [pd.read_csv(response.content.decode('utf-8'))];
    - [writable]: whether a file at this path can be created and written
      ([OSError] otherwise). *)
Record World : Type := {
  catalog : result (Z * result (list Dataset));
  requests_get : string → result Response;
  read_csv : string → result Table;
  writable : string → bool
}.

(** What the script prints. *)
Inductive Message : Type :=
  | Skipping (name : string)
  | Downloading (name : string)
  | Saved (name path : string)
  | FailedDownload (name : string) (status : Z)
  | FailedRetrieve (status : Z)
  | Complete.

(** The metadata file is either empty (just opened with mode ['w']) or holds
    a document. *)
Inductive FileContent : Type :=
  | Truncated
  | Document (doc : MetadataJson).

(** The state the tasks share: the [metadata] dictionary of the process, the
    metadata file, the download directory, the datasets whose
    [download_url] has been requested so far (one entry per call of
    [requests.get], in order), and what has been printed. *)
Record State : Type := {
  st_metadata : Metadata;
  st_metadata_file : option FileContent;
  st_files : gmap string Table;
  st_downloads : list Dataset;
  st_stdout : list Message
}.

Definition print (m : Message) (st : State) : State :=
  {| st_metadata := st_metadata st;
     st_metadata_file := st_metadata_file st;
     st_files := st_files st;
     st_downloads := st_downloads st;
     st_stdout := st_stdout st ++ [m] |}.

Definition request (dataset : Dataset) (st : State) : State :=
  {| st_metadata := st_metadata st;
     st_metadata_file := st_metadata_file st;
     st_files := st_files st;
     st_downloads := st_downloads st ++ [dataset];
     st_stdout := st_stdout st |}.

Definition write_csv (path : string) (df : Table) (st : State) : State :=
  {| st_metadata := st_metadata st;
     st_metadata_file := st_metadata_file st;
     st_files := <[path := df]> (st_files st);
     st_downloads := st_downloads st;
     st_stdout := st_stdout st |}.

Definition set_metadata (metadata : Metadata) (st : State) : State :=
  {| st_metadata := metadata;
     st_metadata_file := st_metadata_file st;
     st_files := st_files st;
     st_downloads := st_downloads st;
     st_stdout := st_stdout st |}.

Definition set_metadata_file (c : FileContent) (st : State) : State :=
  {| st_metadata := st_metadata st;
     st_metadata_file := Some c;
     st_files := st_files st;
     st_downloads := st_downloads st;
     st_stdout := st_stdout st |}.

(** [os.path.join(DOWNLOAD_DIR, f"{dataset['id']}.csv")]: a file name that
    begins with a slash is an absolute path, and [join] returns it alone. *)
Definition file_path (dataset : Dataset) : string :=
  let file := id dataset +:+ ".csv" in
  match file with
  | String "/"%char _ => file
  | _ => DOWNLOAD_DIR +:+ "/" +:+ file
  end.

(** [df.columns = [to_snake_case(col) for col in df.columns]] *)
Definition rename_columns (df : Table) : Table :=
  {| columns := to_snake_case <$> columns df; rows := rows df |}.

(** [metadata['last_run'][dataset['id']] = t]: [KeyError] when the
    dictionary has no ['last_run']. *)
Definition record_success (dataset : Dataset) (t : datetime)
    (metadata : Metadata) : result Metadata :=
  match last_run metadata with
  | Some watermarks =>
      Ok {| last_run := Some (<[id dataset := PDatetime t]> watermarks) |}
  | None => Raised KeyError
  end.

(** [datetime.strptime(dataset['last_modified'], '%Y-%m-%dT%H:%M:%S')], the
    right-hand side of line 70: the subscript is evaluated first, then the
    call. *)
Definition new_watermark (dataset : Dataset) : result datetime :=
  v ← getitem_last_modified dataset; strptime v.

(** ** download_and_process *)

(** The function as one call, with nothing running in between. *)
Definition download_and_process (w : World) (dataset : Dataset) (st : State)
    : result unit * State :=
  match file_modified_since_last_run dataset (st_metadata st) with
  | Raised e => (Raised e, st)
  | Ok false => (Ok (), print (Skipping (name dataset)) st)
  | Ok true =>
    let st := request dataset st in
    match requests_get w (download_url dataset) with
    | Raised e => (Raised e, st)
    | Ok response =>
      if (status_code response =? 200)%Z then
        let st := print (Downloading (name dataset)) st in
        match read_csv w (content response) with
        | Raised e => (Raised e, st)
        | Ok df =>
          let df := rename_columns df in
          if writable w (file_path dataset) then
            let st := write_csv (file_path dataset) df st in
            let st := print (Saved (name dataset) (file_path dataset)) st in
            match new_watermark dataset with
            | Raised e => (Raised e, st)
            | Ok t =>
              match record_success dataset t (st_metadata st) with
              | Raised e => (Raised e, st)
              | Ok metadata =>
                let st := set_metadata metadata st in
                if writable w METADATA_FILE then
                  (Ok (), set_metadata_file (Document (json_dump metadata)) st)
                else (Raised OSError, st)
              end
            end
          else (Raised OSError, st)
        end
      else
        (Ok (), print (FailedDownload (name dataset) (status_code response)) st)
    end
  end.

(** The same function as the steps a thread takes; between two steps other
    threads may run.  The steps are cut where the function touches what the
    threads share:
    - [AtCheck]: line 46, the call of [file_modified_since_last_run];
    - [AtDownload]: lines 51-52, the request;
    - [AtProcess]: lines 54-67 (and 73-74), parsing, renaming and writing
      the CSV file;
    - [AtRecord]: line 70, the update of the shared dictionary;
    - [AtOpen]: line 71, [open(METADATA_FILE, 'w')], which empties the file;
    - [AtDump]: line 72, [json.dump] reads the shared dictionary into the
      buffer of the file object;
    - [AtClose]: the end of the [with] block, which flushes the buffer.
    Two simplifications.  [json.dump] is one step: it reads the dictionary
    at one instant (the [RuntimeError] of a dictionary that grows while the
    encoder iterates over it is left out).  The flush replaces the content
    of the file by the buffer (two file objects writing over each other's
    bytes are left out). *)
Inductive Task : Type :=
  | AtCheck
  | AtDownload
  | AtProcess (response : Response)
  | AtRecord
  | AtOpen
  | AtDump
  | AtClose (buffer : MetadataJson)
  | Finished (r : result unit).

Definition step (w : World) (dataset : Dataset) (pc : Task) (st : State)
    : Task * State :=
  match pc with
  | AtCheck =>
      match file_modified_since_last_run dataset (st_metadata st) with
      | Raised e => (Finished (Raised e), st)
      | Ok false => (Finished (Ok ()), print (Skipping (name dataset)) st)
      | Ok true => (AtDownload, st)
      end
  | AtDownload =>
      let st := request dataset st in
      match requests_get w (download_url dataset) with
      | Raised e => (Finished (Raised e), st)
      | Ok response => (AtProcess response, st)
      end
  | AtProcess response =>
      if (status_code response =? 200)%Z then
        let st := print (Downloading (name dataset)) st in
        match read_csv w (content response) with
        | Raised e => (Finished (Raised e), st)
        | Ok df =>
          let df := rename_columns df in
          if writable w (file_path dataset) then
            let st := write_csv (file_path dataset) df st in
            (AtRecord, print (Saved (name dataset) (file_path dataset)) st)
          else (Finished (Raised OSError), st)
        end
      else
        (Finished (Ok ()),
         print (FailedDownload (name dataset) (status_code response)) st)
  | AtRecord =>
      match new_watermark dataset with
      | Raised e => (Finished (Raised e), st)
      | Ok t =>
        match record_success dataset t (st_metadata st) with
        | Raised e => (Finished (Raised e), st)
        | Ok metadata => (AtOpen, set_metadata metadata st)
        end
      end
  | AtOpen =>
      if writable w METADATA_FILE then (AtDump, set_metadata_file Truncated st)
      else (Finished (Raised OSError), st)
  | AtDump => (AtClose (json_dump (st_metadata st)), st)
  | AtClose buffer => (Finished (Ok ()), set_metadata_file (Document buffer) st)
  | Finished r => (Finished r, st)
  end.

(** A task takes at most seven steps. *)
Definition task_steps : nat := 7.

Fixpoint steps (n : nat) (w : World) (dataset : Dataset) (pc : Task)
    (st : State) : Task * State :=
  match n with
  | O => (pc, st)
  | S n => let '(pc, st) := step w dataset pc st in steps n w dataset pc st
  end.

(** ** The thread pool *)

(** The tasks submitted to the executor, each with the point it has reached,
    the shared state, and the indices of the tasks in the order in which
    they finished.  Every task may take its next step at any time: an
    executor with fewer workers than tasks allows fewer interleavings, not
    other ones. *)
Record Pool : Type := {
  tasks : list (Dataset * Task);
  shared : State;
  completed : list nat
}.

Definition is_finished (pc : Task) : bool :=
  match pc with Finished _ => true | _ => false end.

(** The thread of task [i] takes one step. *)
Definition step_thread (w : World) (i : nat) (p : Pool) : Pool :=
  match tasks p !! i with
  | Some (dataset, pc) =>
      if is_finished pc then p
      else
        let '(pc', st) := step w dataset pc (shared p) in
        {| tasks := <[i := (dataset, pc')]> (tasks p);
           shared := st;
           completed := if is_finished pc' then completed p ++ [i]
                        else completed p |}
  | None => p
  end.

(** [executor.submit(download_and_process, dataset, metadata)] for every
    dataset of the list. *)
Definition submit (datasets : list Dataset) (st : State) : Pool :=
  {| tasks := (λ dataset, (dataset, AtCheck)) <$> datasets;
     shared := st;
     completed := [] |}.

(** The threads run in the order the schedule names them. *)
Definition run_schedule (w : World) (schedule : list nat) (p : Pool) : Pool :=
  foldl (λ p i, step_thread w i p) p schedule.

(** Leaving the [with] block: [shutdown(wait=True)] returns when every task
    has finished; the tasks still running are run to their ends. *)
Definition wait (w : World) (p : Pool) : Pool :=
  run_schedule w
    (i ← seq 0 (length (tasks p)); replicate task_steps i) p.

(** The loop [for future in as_completed(futures): future.result()]: the
    exception of the first finished task that raised, if any.  (The futures
    are taken in the order in which the tasks finished; the properties below
    use only that the exception is the one of some task.) *)
Definition task_result (p : Pool) (i : nat) : result unit :=
  match tasks p !! i with
  | Some (_, Finished r) => r
  | _ => Ok ()
  end.

Fixpoint first_raised (results : list (result unit)) : result unit :=
  match results with
  | [] => Ok ()
  | Raised e :: _ => Raised e
  | Ok _ :: rest => first_raised rest
  end.

Definition as_completed_results (p : Pool) : result unit :=
  first_raised (task_result p <$> completed p).

(** The block [with ThreadPoolExecutor() as executor: ...]. *)
Definition executor_block (w : World) (schedule : list nat)
    (datasets : list Dataset) (st : State) : Pool :=
  wait w (run_schedule w schedule (submit datasets st)).

(** ** main *)

(** Lines 81-85: the metadata file, or the empty structure. *)
Definition load_metadata (st : State) : result Metadata :=
  match st_metadata_file st with
  | Some (Document doc) => Ok (json_load doc)
  | Some Truncated => Raised JSONDecodeError
  | None => Ok {| last_run := Some ∅ |}
  end.

(** What a call of [main] leaves: how it returned, the state, and the tasks
    it submitted ([futures], empty when it never reached the executor). *)
Record Run : Type := {
  returned : result unit;
  final : State;
  futures : list (Dataset * Task)
}.

Definition main (w : World) (schedule : list nat) (st : State) : Run :=
  match load_metadata st with
  | Raised e => {| returned := Raised e; final := st; futures := [] |}
  | Ok metadata =>
    let st := set_metadata metadata st in
    match catalog w with
    | Raised e => {| returned := Raised e; final := st; futures := [] |}
    | Ok (status, items) =>
      if negb (status =? 200)%Z then
        {| returned := Ok ();
           final := print (FailedRetrieve status) st;
           futures := [] |}
      else
        match items with
        | Raised e => {| returned := Raised e; final := st; futures := [] |}
        | Ok datasets =>
          let hospital_datasets := hospital_datasets THEME datasets in
          let p := executor_block w schedule hospital_datasets st in
          match as_completed_results p with
          | Raised e =>
              {| returned := Raised e; final := shared p; futures := tasks p |}
          | Ok _ =>
              {| returned := Ok ();
                 final := print Complete (shared p);
                 futures := tasks p |}
          end
        end
    end
  end.

(** The exit status of the interpreter after [main()]: 0 when it returns, 1
    when an exception reaches the top level. *)
Definition exit_status (r : result unit) : Z :=
  match r with
  | Ok _ => 0
  | Raised _ => 1
  end.

(** A new process on the files a run left: nothing requested or printed
    yet. *)
Definition next_run (st : State) : State :=
  {| st_metadata := {| last_run := None |};
     st_metadata_file := st_metadata_file st;
     st_files := st_files st;
     st_downloads := [];
     st_stdout := [] |}.

(** ** Vocabulary of the properties *)

(** The watermark stored for a dataset, if any. *)
Definition watermark (dataset : Dataset) (metadata : Metadata)
    : option pyval :=
  default ∅ (last_run metadata) !! id dataset.

(** Two characters are the same letter up to case. *)
Definition same_letter (a b : ascii) : Prop := lower_char a = lower_char b.

(** [theme] occurs in [name] as a substring, case ignored: a stretch of
    [name] spells it letter by letter. *)
Definition contains_ignoring_case (theme name : string) : Prop :=
  ∃ before middle after,
    list_ascii_of_string name = (before ++ middle ++ after)%list
    ∧ Forall2 same_letter (list_ascii_of_string theme) middle.

(** [selected] is what is left of [datasets] when exactly the elements
    satisfying [P] are kept, in their order. *)
Inductive selects (P : Dataset → Prop) : list Dataset → list Dataset → Prop :=
  | selects_nil : selects P [] []
  | selects_keep dataset datasets selected :
      P dataset → selects P datasets selected →
      selects P (dataset :: datasets) (dataset :: selected)
  | selects_drop dataset datasets selected :
      ¬ P dataset → selects P datasets selected →
      selects P (dataset :: datasets) selected.

(** The watermarks of the document in the metadata file, if it holds one. *)
Definition durable_watermarks (st : State) : option (gmap string json) :=
  match st_metadata_file st with
  | Some (Document doc) => json_last_run doc
  | _ => None
  end.

(** The steps a task still has to take, at most. *)
Definition remaining (pc : Task) : nat :=
  match pc with
  | AtCheck => 7 | AtDownload => 6 | AtProcess _ => 5 | AtRecord => 4
  | AtOpen => 3 | AtDump => 2 | AtClose _ => 1 | Finished _ => 0
  end.

(** [completed] lists the tasks that have finished, and only those. *)
Definition completed_finished (p : Pool) : Prop :=
  ∀ i, i ∈ completed p
       ↔ ∃ dataset r, tasks p !! i = Some (dataset, Finished r).

(** Three invariants of a run that started from the watermarks [recorded] in
    the metadata file.  The watermarks read from the file are still in the
    dictionary, as [json.load] gave them. *)
Definition keeps_recorded (recorded : gmap string json) (st : State) : Prop :=
  ∀ k j, recorded !! k = Some j →
    default ∅ (last_run (st_metadata st)) !! k = Some (of_json j).

(** No dataset with a watermark in the file has been requested. *)
Definition requests_unrecorded (recorded : gmap string json) (st : State)
    : Prop :=
  ∀ dataset, dataset ∈ st_downloads st → recorded !! id dataset = None.

(** A task whose dataset has a watermark in the file does not get past the
    call of [file_modified_since_last_run]. *)
Definition held_at_check (recorded : gmap string json)
    (dataset : Dataset) (pc : Task) : Prop :=
  is_Some (recorded !! id dataset) →
  pc = AtCheck ∨ ∃ e, pc = Finished (Raised e).

Definition rerun_invariant (recorded : gmap string json) (p : Pool) : Prop :=
  keeps_recorded recorded (shared p)
  ∧ requests_unrecorded recorded (shared p)
  ∧ ∀ i dataset pc, tasks p !! i = Some (dataset, pc) →
      held_at_check recorded dataset pc.

(** The fetch, the parse or a write of the task that has come to [pc] raises
    [e], whatever the other tasks have done: the request raises; the body of
    a 200 answer cannot be parsed; the CSV file cannot be written; the
    metadata file cannot be opened for writing. *)
Inductive fails (w : World) (dataset : Dataset) : Task → exn → Prop :=
  | fetch_fails e :
      requests_get w (download_url dataset) = Raised e →
      fails w dataset AtDownload e
  | parse_fails response e :
      status_code response = 200%Z →
      read_csv w (content response) = Raised e →
      fails w dataset (AtProcess response) e
  | write_fails response df :
      status_code response = 200%Z →
      read_csv w (content response) = Ok df →
      writable w (file_path dataset) = false →
      fails w dataset (AtProcess response) OSError
  | write_metadata_fails :
      writable w METADATA_FILE = false →
      fails w dataset AtOpen OSError.

(** ** Example runs *)

Module Examples.

Definition general_information : Dataset :=
  {| id := "42";
     name := "Hospitals - General Information";
     last_modified := Some (PStr "2024-01-02T00:00:00");
     download_url := "https://data.example/42.csv" |}.

Definition readmissions : Dataset :=
  {| id := "43";
     name := "Readmissions in hospitals";
     last_modified := Some (PStr "2024-03-01T12:00:00");
     download_url := "https://data.example/43.csv" |}.

Definition nursing_homes : Dataset :=
  {| id := "50";
     name := "Nursing Homes";
     last_modified := Some (PStr "2024-03-01T12:00:00");
     download_url := "https://data.example/50.csv" |}.

(** A dataset without the key ['last_modified'], and one with a date that is
    none. *)
Definition undated : Dataset :=
  {| id := "60"; name := "Hospitals undated"; last_modified := None;
     download_url := "https://data.example/60.csv" |}.

Definition misdated : Dataset :=
  {| id := "61"; name := "Hospitals misdated";
     last_modified := Some (PStr "last Tuesday");
     download_url := "https://data.example/61.csv" |}.

Definition table : Table :=
  {| columns := ["Facility ID"; "HospitalName"];
     rows := [["1"; "General"]] |}.

Definition csv : Response :=
  {| status_code := 200; content := "Facility ID,HospitalName" |}.

(** Every request answers 200 and every file can be written. *)
Definition fine (listing : list Dataset) : World :=
  {| catalog := Ok (200%Z, Ok listing);
     requests_get := λ _, Ok csv;
     read_csv := λ _, Ok table;
     writable := λ _, true |}.

(** The body of the first dataset cannot be parsed. *)
Definition unparsable_first : World :=
  {| catalog := Ok (200%Z, Ok [general_information; readmissions]);
     requests_get := λ url,
       if bool_decide (url = download_url general_information)
       then Ok {| status_code := 200; content := "<html>" |}
       else Ok csv;
     read_csv := λ body,
       if bool_decide (body = "<html>") then Raised ParserError
       else Ok table;
     writable := λ _, true |}.

(** The server has no body for the second dataset: it answers 503. *)
Definition second_unavailable : World :=
  {| catalog := Ok (200%Z, Ok [general_information; readmissions]);
     requests_get := λ url,
       if bool_decide (url = download_url readmissions)
       then Ok {| status_code := 503; content := "" |}
       else Ok csv;
     read_csv := λ _, Ok table;
     writable := λ _, true |}.

(** The catalogue answers 500. *)
Definition catalog_down : World :=
  {| catalog := Ok (500%Z, Raised JSONDecodeError);
     requests_get := λ _, Ok csv;
     read_csv := λ _, Ok table;
     writable := λ _, true |}.

(** A first start: no metadata file, an empty download directory. *)
Definition fresh : State :=
  {| st_metadata := {| last_run := None |};
     st_metadata_file := None;
     st_files := ∅;
     st_downloads := [];
     st_stdout := [] |}.

(** In memory, dataset 42 was synchronised at its version of 1 January. *)
Definition synced_42 : Metadata :=
  {| last_run := Some {[ "42" := PDatetime (Datetime 2024 1 1 0 0 0) ]} |}.

(** Task 1 downloads and saves its CSV file; task 0 runs until its buffer is
    filled; task 1 records its watermark, opens, fills and closes the file;
    then task 0 closes the file. *)
Definition overtaking : list nat :=
  [1; 1; 1] ++ [0; 0; 0; 0; 0; 0] ++ [1; 1; 1; 1] ++ [0].

End Examples.

(** ** Vocabulary of the further properties *)

(** [str.isascii]: every code point is below 128.  This is the range on
    which the character classes and [lower_char] are Python's. *)
Definition is_ascii (c : ascii) : bool := (code c <? 128)%nat.

Definition isascii (s : string) : Prop :=
  Forall (λ c, is_ascii c = true) (list_ascii_of_string s).

(** A letter or a digit. *)
Definition is_alnum (c : ascii) : bool :=
  is_lower c || is_upper c || is_digit c.

(** The letters and digits of a name, in their order. *)
Definition letters_and_digits (name : list ascii) : list ascii :=
  List.filter is_alnum name.

(** The number of places of a name where a lowercase letter or a digit is
    directly followed by an uppercase letter. *)
Fixpoint camel_boundaries (name : list ascii) : nat :=
  match name with
  | a :: (b :: _) as tl =>
      (if is_lower_or_digit a && is_upper b then 1 else 0)
      + camel_boundaries tl
  | _ => 0
  end.

(** A directive of one or two digits, before two characters the first of
    which is a digit: it fails, or it takes both, or it takes the first. *)
Definition one_or_two (p : Strptime.parser) : Prop :=
  ∀ a b rest, is_digit a = true →
    p (a :: b :: rest) = None
    ∨ (∃ v, p (a :: b :: rest) = Some (v, rest))
    ∨ (∃ v, p (a :: b :: rest) = Some (v, b :: rest)).

(** A task that has not called [requests.get] yet and can still do so. *)
Definition before_request (pc : Task) : bool :=
  match pc with AtCheck | AtDownload => true | _ => false end.

Definition pending (tasks : list (Dataset * Task)) : nat :=
  length (List.filter (λ t, before_request t.2) tasks).

(** Every request made so far is the request of a submitted task. *)
Definition requested_submitted (p : Pool) : Prop :=
  ∀ dataset, dataset ∈ st_downloads (shared p) →
    ∃ i pc, tasks p !! i = Some (dataset, pc).

(** No task has requested twice. *)
Definition requested_once (p : Pool) : Prop :=
  (length (st_downloads (shared p)) + pending (tasks p)
   ≤ length (tasks p))%nat.

(** Where the watermarks of the dictionary come from: from [loaded], or from
    the [last_modified] of a submitted dataset. *)
Definition watermarks_from (loaded : Metadata) (p : Pool) : Prop :=
  ∀ k v, default ∅ (last_run (st_metadata (shared p))) !! k = Some v →
    default ∅ (last_run loaded) !! k = Some v
    ∨ ∃ i dataset pc t,
        tasks p !! i = Some (dataset, pc) ∧ id dataset = k
        ∧ strptime (get_last_modified dataset) = Ok t ∧ v = PDatetime t.

(** The ids that had a watermark in [loaded] still have one. *)
Definition keeps_keys (loaded : Metadata) (st : State) : Prop :=
  ∀ k, is_Some (default ∅ (last_run loaded) !! k) →
    is_Some (default ∅ (last_run (st_metadata st)) !! k).

(** The metadata file and the dictionary are in step: nothing has been
    recorded since the start (the file is [file], the dictionary [loaded]),
    or the file holds the dictionary as it is now. *)
Definition in_step (file : option FileContent) (loaded : Metadata)
    (st : State) : Prop :=
  (st_metadata_file st = file ∧ st_metadata st = loaded)
  ∨ st_metadata_file st = Some (Document (json_dump (st_metadata st))).

(** A task that is not under way: not started, or finished. *)
Definition idle (pc : Task) : bool :=
  match pc with AtCheck | Finished _ => true | _ => false end.

(** The schedule in which the tasks of [order] run one after the other, each
    from its start to its end before the next takes a step. *)
Definition in_turn (order : list nat) : list nat :=
  i ← order; replicate task_steps i.

Module MoreExamples.

(** A process that has loaded the empty metadata. *)
Definition ready : State :=
  set_metadata {| last_run := Some ∅ |} Examples.fresh.

(** A listing of three datasets, two of them about hospitals. *)
Definition listing : list Dataset :=
  [Examples.general_information; Examples.nursing_homes;
   Examples.readmissions].

(** The files of a run that synchronised dataset 42, in a new process. *)
Definition second_start : State :=
  next_run
    (final (main (Examples.fine [Examples.general_information]) []
              Examples.fresh)).

End MoreExamples.

Local Close Scope string_scope.

Section snake_lemmas.

Lemma lower_char_canonical c :
  is_word c = true → is_canonical_char (lower_char c) = true.
Proof.
  destruct c as [[] [] [] [] [] [] [] []]; vm_compute; congruence.
Qed.

Lemma lower_char_underscore c : lower_char c = "_" ↔ c = "_".
Proof.
  destruct c as [[] [] [] [] [] [] [] []]; vm_compute; split; congruence.
Qed.

Lemma canonical_char_fixed c :
  is_canonical_char c = true →
  is_upper c = false ∧ is_word c = true ∧ lower_char c = c.
Proof.
  destruct c as [[] [] [] [] [] [] [] []]; vm_compute; intuition congruence.
Qed.

Lemma sub_nonword_from_word b name :
  Forall (λ c, is_word c = true) (sub_nonword_from b name).
Proof.
  revert b; induction name as [|c tl IH]; intros b; simpl; [constructor|].
  destruct (is_word c) eqn:Hc.
  - constructor; [done | apply IH].
  - destruct b; [apply IH|]. constructor; [done | apply IH].
Qed.

Lemma lstrip_underscore_incl name c :
  c ∈ lstrip_underscore name → c ∈ name.
Proof.
  induction name as [|a tl IH]; simpl; [done|].
  case_bool_decide; [|done]. intros Hin; right; auto.
Qed.

Lemma rstrip_underscore_incl name c :
  c ∈ rstrip_underscore name → c ∈ name.
Proof.
  induction name as [|a tl IH]; simpl; [done|].
  destruct (rstrip_underscore tl) as [|k ks] eqn:E.
  - case_bool_decide; [by intros ?%elem_of_nil|].
    intros ->%list_elem_of_singleton; left.
  - intros [->|H]%elem_of_cons; [left | right; auto].
Qed.

Lemma lstrip_underscore_head name : head (lstrip_underscore name) ≠ Some "_".
Proof.
  induction name as [|a tl IH]; simpl; [done|].
  case_bool_decide; [done|]. simpl; congruence.
Qed.

Lemma rstrip_underscore_head name :
  head name ≠ Some "_" → head (rstrip_underscore name) ≠ Some "_".
Proof.
  destruct name as [|a tl]; simpl; [done|]. intros Ha.
  destruct (rstrip_underscore tl); [|done].
  case_bool_decide; [done | simpl; congruence].
Qed.

Lemma rstrip_underscore_last name : last (rstrip_underscore name) ≠ Some "_".
Proof.
  induction name as [|a tl IH]; simpl; [done|].
  destruct (rstrip_underscore tl) as [|k ks] eqn:E.
  - case_bool_decide; [done | simpl; congruence].
  - exact IH.
Qed.

Lemma strip_underscore_ends name :
  head (strip_underscore name) ≠ Some "_"
  ∧ last (strip_underscore name) ≠ Some "_".
Proof.
  split; [|apply rstrip_underscore_last].
  apply rstrip_underscore_head, lstrip_underscore_head.
Qed.

Lemma head_lower name : head (lower name) = lower_char <$> head name.
Proof. by destruct name. Qed.

Lemma last_lower name : last (lower name) = lower_char <$> last name.
Proof. unfold lower. by rewrite <- fmap_last. Qed.

Lemma lower_ends name :
  head name ≠ Some "_" → last name ≠ Some "_" →
  head (lower name) ≠ Some "_" ∧ last (lower name) ≠ Some "_".
Proof.
  rewrite head_lower, last_lower. intros Hh Hl; split.
  - destruct (head name) as [c|]; simpl; [|done].
    intros E. injection E as E.
    apply (proj1 (lower_char_underscore c)) in E. congruence.
  - destruct (last name) as [c|]; simpl; [|done].
    intros E. injection E as E.
    apply (proj1 (lower_char_underscore c)) in E. congruence.
Qed.

(** What the function returns is a canonical name. *)
Lemma snake_canonical name : canonical (snake name).
Proof.
  unfold snake. split.
  - unfold lower. apply Forall_fmap, Forall_forall. intros c Hc. simpl.
    apply lower_char_canonical.
    apply rstrip_underscore_incl, lstrip_underscore_incl in Hc.
    pose proof (sub_nonword_from_word false (sub_camel name)) as Hw.
    rewrite Forall_forall in Hw. by apply Hw.
  - apply lower_ends; apply strip_underscore_ends.
Qed.

Lemma sub_camel_no_upper name :
  Forall (λ c, is_upper c = false) name → sub_camel name = name.
Proof.
  induction 1 as [|a tl Ha Htl IH]; [done|].
  simpl. destruct tl as [|b rest]; [done|].
  inversion Htl as [|? ? Hb _]; subst.
  rewrite Hb, andb_false_r. by rewrite IH.
Qed.

Lemma sub_nonword_all_word name :
  Forall (λ c, is_word c = true) name → sub_nonword name = name.
Proof.
  unfold sub_nonword. induction 1 as [|a tl Ha Htl IH]; [done|].
  simpl. by rewrite Ha, IH.
Qed.

Lemma lstrip_underscore_id name :
  head name ≠ Some "_" → lstrip_underscore name = name.
Proof.
  destruct name as [|a tl]; simpl; [done|].
  intros H. case_bool_decide; [subst; done | done].
Qed.

Lemma rstrip_underscore_id name :
  last name ≠ Some "_" → rstrip_underscore name = name.
Proof.
  induction name as [|a tl IH]; simpl; [done|].
  destruct tl as [|b rest].
  - simpl. intros H. case_bool_decide; [subst; done | done].
  - intros H. rewrite IH by exact H. done.
Qed.

Lemma lower_no_upper name :
  Forall (λ c, lower_char c = c) name → lower name = name.
Proof.
  unfold lower. induction 1 as [|a tl Ha Htl IH]; [done|].
  simpl. by rewrite Ha, IH.
Qed.

(** A canonical name is a fixed point of every stage. *)
Lemma snake_fixed name : canonical name → snake name = name.
Proof.
  intros (Hc & Hh & Hl). unfold snake, strip_underscore.
  rewrite sub_camel_no_upper, sub_nonword_all_word,
    lstrip_underscore_id, rstrip_underscore_id, lower_no_upper; try done.
  all: eapply Forall_impl; [exact Hc|]; intros c Hcc;
    by apply canonical_char_fixed in Hcc as (? & ? & ?).
Qed.

End snake_lemmas.

(** ** to_snake_case: the properties *)

Lemma to_snake_case_canonical (s : string) :
  canonical (list_ascii_of_string (to_snake_case s)).
Proof.
  unfold to_snake_case. rewrite list_ascii_of_string_of_list_ascii.
  apply snake_canonical.
Qed.

(** C5.  [to_snake_case] is a total function from strings to strings (it has
    no failure case: both substitutions, [strip] and [lower] are defined on
    every string), applying it twice to a printable ASCII string gives what
    applying it once gives, and the four values of the specification are the
    ones it returns. *)
Theorem to_snake_case_idempotent :
  (∀ s : string,
     printable s → to_snake_case (to_snake_case s) = to_snake_case s)
  ∧ to_snake_case "HospitalName" = "hospital_name"%string
  ∧ to_snake_case "Facility ID" = "facility_id"%string
  ∧ to_snake_case "___Weird---Name!!" = "weird_name"%string
  ∧ to_snake_case "" = ""%string.
Proof.
  split; [|by vm_compute].
  intros s _. unfold to_snake_case at 1.
  rewrite snake_fixed by apply to_snake_case_canonical.
  apply string_of_list_ascii_of_string.
Qed.

Lemma to_snake_case_idempotent_witness :
  printable "Facility ID (CCN)!"
  ∧ to_snake_case (to_snake_case "Facility ID (CCN)!")
    = to_snake_case "Facility ID (CCN)!".
Proof.
  assert (H : printable "Facility ID (CCN)!").
  { unfold printable. simpl. repeat constructor. }
  split; [exact H|].
  exact (proj1 to_snake_case_idempotent "Facility ID (CCN)!"%string H).
Defined.

(** C4, where the code departs from it.  An underscore is a word character
    for [\W], so a run of separators that contains underscores is not
    replaced as a whole: the underscores stay, and what is between or beside
    them becomes one more underscore. *)
Theorem to_snake_case_doubled_separator :
  to_snake_case "Provider_ ID" = "provider__id"%string
  ∧ to_snake_case "first__name" = "first__name"%string
  ∧ to_snake_case "a_-_b" = "a___b"%string.
Proof. by vm_compute. Qed.

Local Open Scope string_scope.
Local Open Scope list_scope.

(** ** The order on datetimes *)

Section datetime_order.

Lemma then_cmp_opp c next :
  CompOpp (then_cmp c next) = then_cmp (CompOpp c) (CompOpp next).
Proof. by destruct c. Qed.

Lemma datetime_cmp_antisym a b :
  datetime_cmp b a = CompOpp (datetime_cmp a b).
Proof.
  unfold datetime_cmp. rewrite !then_cmp_opp, <- !Z.compare_antisym. done.
Qed.

Lemma then_cmp_eq c next : then_cmp c next = Eq ↔ c = Eq ∧ next = Eq.
Proof. destruct c; simpl; intuition congruence. Qed.

Lemma datetime_cmp_eq a b : datetime_cmp a b = Eq ↔ a = b.
Proof.
  unfold datetime_cmp. rewrite !then_cmp_eq, !Z.compare_eq_iff.
  destruct a, b; simpl. split.
  - intros (-> & -> & -> & -> & -> & ->); done.
  - intros [= -> -> -> -> -> ->]; done.
Qed.

(** Of two datetimes one is later than the other, or they are the same. *)
Lemma later_trichotomy a b : later a b ∨ a = b ∨ later b a.
Proof.
  unfold later. rewrite (datetime_cmp_antisym a b).
  destruct (datetime_cmp a b) eqn:E; simpl; auto.
  apply datetime_cmp_eq in E. auto.
Qed.

Lemma later_asymmetric a b : later a b → ¬ later b a.
Proof.
  unfold later. rewrite (datetime_cmp_antisym a b).
  destruct (datetime_cmp a b); simpl; congruence.
Qed.

Lemma later_irreflexive a : ¬ later a a.
Proof. intros H. by apply (later_asymmetric a a). Qed.

End datetime_order.

(** ** The staleness predicate *)

Section staleness.

Lemma file_modified_since_last_run_unfold dataset metadata :
  file_modified_since_last_run dataset metadata
  = match watermark dataset metadata with
    | Some last_download_time =>
        t ← strptime (get_last_modified dataset);
        datetime_gt t last_download_time
    | None => Ok true
    end.
Proof. reflexivity. Qed.

(** When line 70 gets a timestamp it is the one line 38 parses: the key is
    there and both read the same value. *)
Lemma new_watermark_ok dataset t :
  new_watermark dataset = Ok t ↔ strptime (get_last_modified dataset) = Ok t.
Proof.
  unfold new_watermark, getitem_last_modified, get_last_modified.
  destruct (last_modified dataset); simpl; [done | split; discriminate].
Qed.

(** C1. For a dataset whose [last_modified] is a timestamp [t] and a
    metadata map whose watermark for the dataset's id, if there is one, is a
    timestamp: [file_modified_since_last_run] returns, and it returns [True]
    exactly when the id is absent from [last_run] or [t] is strictly later
    than the watermark; it returns [False] when [t] is the watermark or
    earlier. *)
Theorem staleness_decision
    (dataset : Dataset) (metadata : Metadata) (t : datetime) :
  strptime (get_last_modified dataset) = Ok t →
  (∀ v, watermark dataset metadata = Some v → ∃ w, v = PDatetime w) →
  ∃ stale : bool,
    file_modified_since_last_run dataset metadata = Ok stale
    ∧ (stale = true ↔
         watermark dataset metadata = None
         ∨ ∃ w, watermark dataset metadata = Some (PDatetime w) ∧ later t w)
    ∧ (∀ w, watermark dataset metadata = Some (PDatetime w) →
         t = w ∨ later w t → stale = false).
Proof.
  intros Ht Hw. rewrite file_modified_since_last_run_unfold, Ht.
  destruct (watermark dataset metadata) as [v|] eqn:Ev.
  - destruct (Hw v eq_refl) as [w ->]. simpl.
    exists (bool_decide (datetime_cmp t w = Gt)). split; [done|]. split.
    + rewrite bool_decide_eq_true. split.
      * intros H. right. by exists w.
      * intros [[=] | (w' & [= <-] & H)]. exact H.
    + intros w' [= <-] H. apply bool_decide_eq_false.
      destruct H as [-> | H]; [apply later_irreflexive|].
      by apply later_asymmetric.
  - exists true. split; [done|]. split; [|done].
    split; [by left | done].
Qed.

Lemma staleness_decision_witness :
  ∃ stale : bool,
    file_modified_since_last_run
      Examples.general_information Examples.synced_42 = Ok stale
    ∧ (stale = true ↔
         watermark Examples.general_information Examples.synced_42 = None
         ∨ ∃ w, watermark Examples.general_information Examples.synced_42
                = Some (PDatetime w)
                ∧ later (Datetime 2024 1 2 0 0 0) w)
    ∧ (∀ w, watermark Examples.general_information Examples.synced_42
            = Some (PDatetime w) →
         Datetime 2024 1 2 0 0 0 = w ∨ later w (Datetime 2024 1 2 0 0 0) →
         stale = false).
Proof.
  apply (staleness_decision Examples.general_information Examples.synced_42
           (Datetime 2024 1 2 0 0 0)).
  - reflexivity.
  - intros v Hv. vm_compute in Hv. injection Hv as <-. eexists; reflexivity.
Defined.

(** The values of the specification: with the watermark of 1 January 2024, a
    version of 2 January is stale, one of 31 December 2023 or of 1 January is
    not; with no watermark at all every dataset is stale. *)
Lemma staleness_examples :
  let at_date (d : string) : Dataset :=
    {| id := "42"; name := "Hospitals"; last_modified := Some (PStr d);
       download_url := "" |} in
  file_modified_since_last_run (at_date "2024-01-02T00:00:00")
    Examples.synced_42 = Ok true
  ∧ file_modified_since_last_run (at_date "2023-12-31T00:00:00")
      Examples.synced_42 = Ok false
  ∧ file_modified_since_last_run (at_date "2024-01-01T00:00:00")
      Examples.synced_42 = Ok false
  ∧ file_modified_since_last_run (at_date "2024-01-01T00:00:00")
      {| last_run := Some ∅ |} = Ok true.
Proof. by vm_compute. Qed.

(** C10.  When the id of the dataset is not in [last_run], the function
    returns [True] whatever [last_modified] is, a missing key (read as
    [None] by line 34) or a string that is no timestamp included: the value
    is parsed only when the id is present, and there a value that does not
    parse makes the call raise. *)
Theorem absent_id_is_stale
    (i n u : string) (lm : option pyval) (metadata : Metadata) :
  let dataset :=
    {| id := i; name := n; last_modified := lm; download_url := u |} in
  watermark dataset metadata = None →
  file_modified_since_last_run dataset metadata = Ok true
  ∧ ∀ (present : Metadata) v e,
      watermark dataset present = Some v →
      strptime (get_last_modified dataset) = Raised e →
      file_modified_since_last_run dataset present = Raised e.
Proof.
  intros dataset Habsent. split.
  - rewrite file_modified_since_last_run_unfold. by rewrite Habsent.
  - intros present v e Hv He.
    rewrite file_modified_since_last_run_unfold, Hv. simpl.
    by rewrite He.
Qed.

Lemma absent_id_is_stale_witness :
  (file_modified_since_last_run Examples.undated Examples.synced_42 = Ok true
   ∧ strptime (get_last_modified Examples.undated) = Raised TypeError)
  ∧ (file_modified_since_last_run Examples.misdated Examples.synced_42
     = Ok true
     ∧ strptime (get_last_modified Examples.misdated) = Raised ValueError).
Proof.
  split; (split; [|reflexivity]).
  - exact (proj1 (absent_id_is_stale "60" "Hospitals undated"
                    "https://data.example/60.csv" None
                    Examples.synced_42 eq_refl)).
  - exact (proj1 (absent_id_is_stale "61" "Hospitals misdated"
                    "https://data.example/61.csv"
                    (Some (PStr "last Tuesday"))
                    Examples.synced_42 eq_refl)).
Defined.

(** ** Writing the metadata and reading it back *)

Lemma watermark_json_load dataset doc :
  watermark dataset (json_load doc)
  = of_json <$> (default ∅ (json_last_run doc) !! id dataset).
Proof.
  unfold watermark, json_load. simpl.
  destruct (json_last_run doc) as [m|]; simpl.
  - apply lookup_fmap.
  - by rewrite !lookup_empty.
Qed.

Lemma datetime_gt_of_json t j : datetime_gt t (of_json j) = Raised TypeError.
Proof. by destruct j. Qed.

(** On metadata read from the file the comparison of line 38 never returns:
    for an id that is present the call raises. *)
Lemma reloaded_watermark_raises dataset doc :
  watermark dataset (json_load doc) ≠ None →
  ∃ e, file_modified_since_last_run dataset (json_load doc) = Raised e.
Proof.
  rewrite file_modified_since_last_run_unfold, watermark_json_load.
  destruct (default ∅ (json_last_run doc) !! id dataset) as [j|]; [|done].
  intros _. simpl. destruct (strptime (get_last_modified dataset)) as [t|e].
  - exists TypeError. simpl. apply datetime_gt_of_json.
  - by exists e.
Qed.

(** C3, where the code departs from it.  In memory the watermark of dataset
    42 is a datetime and the predicate answers; written with [default=str]
    and read back it is the string ["2024-01-01 00:00:00"], which line 38
    compares with a datetime ([TypeError]), and which the format of line 38
    would not parse either (a space where the format has a [T]). *)
Theorem reloaded_watermark_is_a_string :
  file_modified_since_last_run
    Examples.general_information Examples.synced_42 = Ok true
  ∧ watermark Examples.general_information
      (json_load (json_dump Examples.synced_42))
    = Some (PStr "2024-01-01 00:00:00")
  ∧ file_modified_since_last_run Examples.general_information
      (json_load (json_dump Examples.synced_42)) = Raised TypeError
  ∧ strptime (PStr "2024-01-01 00:00:00") = Raised ValueError.
Proof. by vm_compute. Qed.

End staleness.

(** ** The theme filter: the properties *)

Section theme_filter.

Lemma startswith_spec (s sub : list ascii) :
  startswith s sub = true ↔ ∃ after, s = sub ++ after.
Proof.
  revert s; induction sub as [|a sub IH]; intros s; simpl.
  - split; [intros _; by exists s | done].
  - destruct s as [|b s]; simpl.
    + split; [done | intros [after [=]]].
    + rewrite andb_true_iff, bool_decide_eq_true, IH. split.
      * intros [-> [after ->]]. by exists after.
      * intros [after [= -> ->]]. split; [done | by exists after].
Qed.

Lemma str_in_spec (sub s : list ascii) :
  str_in sub s = true ↔ ∃ before after, s = before ++ sub ++ after.
Proof.
  induction s as [|c s IH]; simpl.
  - rewrite orb_false_r, startswith_spec. split.
    + intros [after H]. by exists [], after.
    + intros (before & after & H). symmetry in H.
      apply app_eq_nil in H as [-> H]. by exists after.
  - rewrite orb_true_iff, startswith_spec, IH. split.
    + intros [[after H] | (before & after & ->)].
      * by exists [], after.
      * by exists (c :: before), after.
    + intros ([|b before] & after & H); simpl in H.
      * left. by exists after.
      * injection H as -> ->. right. by exists before, after.
Qed.

Lemma same_letters_lower (a b : list ascii) :
  Forall2 same_letter a b ↔ lower a = lower b.
Proof.
  unfold lower. rewrite list_eq_Forall2, Forall2_fmap. done.
Qed.

(** The test of the comprehension decides the property of the
    specification. *)
Lemma matches_theme_spec theme dataset :
  matches_theme theme dataset = true
  ↔ contains_ignoring_case theme (name dataset).
Proof.
  unfold matches_theme, contains_ignoring_case. rewrite str_in_spec. split.
  - intros (before & after & H). unfold lower in H.
    apply fmap_app_inv in H as (b & rest & -> & Hrest & ->).
    symmetry in Hrest.
    apply fmap_app_inv in Hrest as (m & a & Hm & -> & ->).
    exists b, m, a. split; [done|]. by apply same_letters_lower.
  - intros (b & m & a & -> & Hm%same_letters_lower).
    exists (lower b), (lower a). unfold lower in *.
    by rewrite !fmap_app, Hm.
Qed.

(** What [selects] says: the same members, those of the list that satisfy
    the property, and in the order of the list. *)
Lemma selects_members P datasets selected :
  selects P datasets selected →
  (∀ dataset, dataset ∈ selected ↔ dataset ∈ datasets ∧ P dataset)
  ∧ sublist selected datasets.
Proof.
  induction 1 as [|d ds sel Hd _ [IHm IHs]|d ds sel Hd _ [IHm IHs]].
  - split; [|constructor]. intros d. rewrite elem_of_nil. tauto.
  - split; [|by constructor]. intros d'.
    rewrite !elem_of_cons, IHm. split.
    + intros [-> | [? ?]]; auto.
    + intros [[-> | ?] ?]; auto.
  - split; [|by constructor]. intros d'.
    rewrite elem_of_cons, IHm. split.
    + intros [? ?]; auto.
    + intros [[-> | ?] ?]; [done | auto].
Qed.

(** C6.  The filter keeps exactly the datasets whose name contains the theme
    as a substring when case is ignored, in the order of the listing. *)
Theorem theme_filter_selects (theme : string) (datasets : list Dataset) :
  selects (λ dataset, contains_ignoring_case theme (name dataset))
    datasets (hospital_datasets theme datasets).
Proof.
  unfold hospital_datasets.
  induction datasets as [|dataset datasets IH]; simpl; [constructor|].
  destruct (matches_theme theme dataset) eqn:E.
  - apply selects_keep; [|exact IH]. by apply matches_theme_spec.
  - apply selects_drop; [|exact IH].
    rewrite <- matches_theme_spec. congruence.
Qed.

(** The filter on three names: the theme is found whatever its case, and the
    order of the listing is kept.  On the names of section 8 of the
    specification nothing is kept: ["hospitals"] is in neither
    ["hospital general info"] nor ["hospital readmissions"]. *)
Lemma theme_filter_examples :
  let named (n : string) : Dataset :=
    {| id := n; name := n; last_modified := None; download_url := "" |} in
  hospital_datasets THEME
    [named "HOSPITALS general"; named "Nursing Homes";
     named "Readmissions (hospitals)"]
  = [named "HOSPITALS general"; named "Readmissions (hospitals)"]
  ∧ hospital_datasets THEME
      [named "Hospital General Info"; named "Nursing Homes";
       named "Hospital Readmissions"]
    = [].
Proof. by vm_compute. Qed.

End theme_filter.

Local Open Scope nat_scope.

(** ** The thread pool: every task runs to its end *)

Section pool.

Context (w : World).

(** Run without interruption, the steps are the function. *)
Lemma steps_download_and_process dataset st :
  steps task_steps w dataset AtCheck st
  = (Finished (download_and_process w dataset st).1,
     (download_and_process w dataset st).2).
Proof.
  unfold download_and_process, task_steps. cbn [steps step].
  repeat (case_match; simplify_eq/=; try done).
Qed.

Lemma remaining_bound pc : remaining pc ≤ task_steps.
Proof. destruct pc; unfold task_steps; simpl; lia. Qed.

Lemma remaining_finished pc : remaining pc = 0 → ∃ r, pc = Finished r.
Proof. destruct pc; simpl; try lia. eauto. Qed.

Lemma step_remaining dataset pc st :
  remaining (step w dataset pc st).1 ≤ pred (remaining pc).
Proof.
  destruct pc; simpl; repeat case_match; simpl; lia.
Qed.

Lemma step_thread_lookup i j p :
  tasks (step_thread w i p) !! j
  = if decide (i = j)
    then '(dataset, pc) ← tasks p !! i;
         Some (dataset, (step w dataset pc (shared p)).1)
    else tasks p !! j.
Proof.
  unfold step_thread.
  destruct (tasks p !! i) as [[dataset pc]|] eqn:E; simpl.
  - destruct (is_finished pc) eqn:F.
    + destruct pc; try done. case_decide; subst; simpl; [|done].
      by rewrite E.
    + destruct (step w dataset pc (shared p)) as [pc' st'] eqn:S. simpl.
      case_decide; subst.
      * rewrite list_lookup_insert_eq; [done|]. by eapply lookup_lt_Some.
      * by rewrite list_lookup_insert_ne.
  - case_decide; subst; simpl; [by rewrite E | done].
Qed.

(** A step of one thread leaves the other tasks where they are, whatever
    the thread's own task has come to. *)
Lemma step_thread_other i j p :
  i ≠ j → tasks (step_thread w i p) !! j = tasks p !! j.
Proof. intros H. rewrite step_thread_lookup. by case_decide. Qed.

Lemma step_thread_dataset i j p dataset pc :
  tasks p !! j = Some (dataset, pc) →
  ∃ pc', tasks (step_thread w i p) !! j = Some (dataset, pc')
         ∧ remaining pc' ≤ remaining pc
         ∧ (i = j → remaining pc' ≤ pred (remaining pc)).
Proof.
  intros H. rewrite step_thread_lookup. case_decide; subst.
  - rewrite H. simpl. eexists; split; [done|].
    pose proof (step_remaining dataset pc (shared p)). split; [lia | done].
  - exists pc. split; [done|]. split; [lia | done].
Qed.

Lemma run_schedule_app a b p :
  run_schedule w (a ++ b) p = run_schedule w b (run_schedule w a p).
Proof. apply foldl_app. Qed.

Lemma run_schedule_dataset schedule j p dataset pc :
  tasks p !! j = Some (dataset, pc) →
  ∃ pc', tasks (run_schedule w schedule p) !! j = Some (dataset, pc')
         ∧ remaining pc' ≤ remaining pc.
Proof.
  revert p pc; induction schedule as [|i schedule IH]; intros p pc H; simpl.
  - by exists pc.
  - destruct (step_thread_dataset i j p dataset pc H) as (pc1 & H1 & Hle & _).
    destruct (IH _ _ H1) as (pc2 & H2 & Hle2).
    exists pc2. split; [done | lia].
Qed.

(** A finished task stays finished. *)
Lemma run_schedule_finished schedule j p dataset r :
  tasks p !! j = Some (dataset, Finished r) →
  ∃ r', tasks (run_schedule w schedule p) !! j = Some (dataset, Finished r').
Proof.
  intros H. destruct (run_schedule_dataset schedule j p _ _ H)
    as (pc & Hpc & Hle).
  simpl in Hle. destruct (remaining_finished pc) as [r' ->]; [lia|]. eauto.
Qed.

(** Scheduled often enough, a task finishes. *)
Lemma run_replicate_finishes n i p dataset pc :
  tasks p !! i = Some (dataset, pc) → remaining pc ≤ n →
  ∃ r, tasks (run_schedule w (replicate n i) p) !! i
       = Some (dataset, Finished r).
Proof.
  revert p pc; induction n as [|n IH]; intros p pc H Hn; simpl.
  - destruct (remaining_finished pc) as [r ->]; [lia | eauto].
  - destruct (step_thread_dataset i i p dataset pc H) as (pc1 & H1 & _ & Hle).
    apply (IH _ pc1 H1). specialize (Hle eq_refl). lia.
Qed.

Lemma run_blocks_finish (threads : list nat) j p dataset pc :
  j ∈ threads → tasks p !! j = Some (dataset, pc) →
  ∃ r, tasks (run_schedule w (i ← threads; replicate task_steps i) p) !! j
       = Some (dataset, Finished r).
Proof.
  revert p pc; induction threads as [|i threads IH]; intros p pc Hj H.
  - by apply elem_of_nil in Hj.
  - cbn [mbind list_bind]. rewrite run_schedule_app.
    destruct (decide (j = i)) as [->|Hne].
    + destruct (run_replicate_finishes task_steps i p dataset pc H
                  (remaining_bound pc)) as [r Hr].
      by eapply run_schedule_finished.
    + apply elem_of_cons in Hj as [?|Hj]; [done|].
      destruct (run_schedule_dataset (replicate task_steps i) j p _ _ H)
        as (pc1 & H1 & _).
      by apply (IH _ pc1).
Qed.

Lemma run_schedule_length schedule p :
  length (tasks (run_schedule w schedule p)) = length (tasks p).
Proof.
  revert p; induction schedule as [|i schedule IH]; intros p; simpl; [done|].
  rewrite IH. unfold step_thread.
  destruct (tasks p !! i) as [[dataset pc]|]; [|done].
  destruct (is_finished pc); [done|].
  destruct (step w dataset pc (shared p)). simpl. apply length_insert.
Qed.

(** When the [with] block is left every task has run to its end. *)
Lemma wait_finishes p j dataset pc :
  tasks p !! j = Some (dataset, pc) →
  ∃ r, tasks (wait w p) !! j = Some (dataset, Finished r).
Proof.
  intros H. unfold wait. apply (run_blocks_finish _ j p dataset pc); [|done].
  apply elem_of_seq. split; [lia|]. simpl. by eapply lookup_lt_Some.
Qed.

Lemma executor_block_finishes schedule datasets st i dataset :
  datasets !! i = Some dataset →
  ∃ r, tasks (executor_block w schedule datasets st) !! i
       = Some (dataset, Finished r).
Proof.
  intros H. unfold executor_block.
  assert (tasks (submit datasets st) !! i = Some (dataset, AtCheck)) as H0.
  { unfold submit. simpl. by rewrite list_lookup_fmap, H. }
  destruct (run_schedule_dataset schedule i _ _ _ H0) as (pc & Hpc & _).
  by eapply wait_finishes.
Qed.

Lemma executor_block_length schedule datasets st :
  length (tasks (executor_block w schedule datasets st)) = length datasets.
Proof.
  unfold executor_block, wait. rewrite !run_schedule_length.
  unfold submit. simpl. apply length_fmap.
Qed.

Lemma submit_completed datasets st : completed_finished (submit datasets st).
Proof.
  intros i. unfold submit; simpl. rewrite elem_of_nil. split; [done|].
  intros (dataset & r & H). rewrite list_lookup_fmap in H.
  destruct (datasets !! i); simplify_eq/=.
Qed.

Lemma is_finished_true pc : is_finished pc = true ↔ ∃ r, pc = Finished r.
Proof.
  destruct pc; simpl; split; try done; try (intros [? [=]]); eauto.
Qed.

Lemma step_thread_completed i p :
  completed_finished p → completed_finished (step_thread w i p).
Proof.
  intros Hp k. unfold completed_finished in Hp.
  pose proof (step_thread_lookup i k p) as Hk. revert Hk.
  unfold step_thread.
  destruct (tasks p !! i) as [[dataset pc]|] eqn:E; [|intros _; apply Hp].
  destruct (is_finished pc) eqn:F; [intros _; apply Hp|].
  destruct (step w dataset pc (shared p)) as [pc' st'] eqn:S. simpl.
  intros ->. case_decide; subst; simpl.
  - rewrite S; simpl. destruct (is_finished pc') eqn:F'.
    + apply is_finished_true in F' as [r ->]. split; [eauto|].
      intros _. apply elem_of_app. right. apply list_elem_of_singleton. done.
    + rewrite Hp, E. split.
      * intros (? & ? & [= <- ->]). done.
      * intros (? & r & [= <- ->]). done.
  - rewrite <- Hp. destruct (is_finished pc'); [|done].
    rewrite elem_of_app, list_elem_of_singleton.
    split; [intros [?|?]; [done | congruence] | auto].
Qed.

Lemma run_schedule_completed schedule p :
  completed_finished p → completed_finished (run_schedule w schedule p).
Proof.
  revert p; induction schedule as [|i schedule IH]; intros p Hp; [done|].
  simpl. by apply IH, step_thread_completed.
Qed.

Lemma executor_block_completed schedule datasets st :
  completed_finished (executor_block w schedule datasets st).
Proof.
  unfold executor_block, wait.
  by do 2 apply run_schedule_completed; apply submit_completed.
Qed.

Lemma first_raised_elem results e :
  first_raised results = Raised e → Raised e ∈ results.
Proof.
  induction results as [|[[]|e'] results IH]; simpl; [done| |].
  - intros H. right. auto.
  - intros [= ->]. left.
Qed.

Lemma first_raised_some results e :
  Raised e ∈ results → ∃ e', first_raised results = Raised e'.
Proof.
  induction results as [|[[]|e'] results IH]; simpl.
  - by intros ?%elem_of_nil.
  - intros [[=]|H]%elem_of_cons. auto.
  - eauto.
Qed.

Lemma task_result_raised p i e :
  task_result p i = Raised e →
  ∃ dataset, tasks p !! i = Some (dataset, Finished (Raised e)).
Proof.
  unfold task_result.
  destruct (tasks p !! i) as [[dataset []]|]; try done.
  intros ->. eauto.
Qed.

(** The exception the loop over [as_completed] ends with is the exception of
    a task, and the loop ends with one as soon as a task has raised. *)
Lemma as_completed_results_raised p e :
  as_completed_results p = Raised e →
  ∃ i dataset, tasks p !! i = Some (dataset, Finished (Raised e)).
Proof.
  intros H%first_raised_elem.
  apply list_elem_of_fmap in H as (i & H & _). symmetry in H.
  apply task_result_raised in H as [dataset H]. eauto.
Qed.

Lemma as_completed_results_some p i dataset e :
  completed_finished p →
  tasks p !! i = Some (dataset, Finished (Raised e)) →
  ∃ e', as_completed_results p = Raised e'.
Proof.
  intros Hp H. apply (first_raised_some _ e).
  apply list_elem_of_fmap. exists i. split.
  - unfold task_result. by rewrite H.
  - apply Hp. eauto.
Qed.

Lemma steps_finished n dataset r st :
  steps n w dataset (Finished r) st = (Finished r, st).
Proof. induction n as [|n IH]; [done|]. simpl. apply IH. Qed.

(** The step of a fetch, a parse or a write that raises ends the task with
    the exception, and the task stays there. *)
Lemma step_fails dataset pc e st :
  fails w dataset pc e → (step w dataset pc st).1 = Finished (Raised e).
Proof.
  intros [e' He | response e' Hs He | response df Hs Hdf Hw | Hw]; simpl.
  - by rewrite He.
  - rewrite Hs. simpl. by rewrite He.
  - rewrite Hs. simpl. by rewrite Hdf, Hw.
  - by rewrite Hw.
Qed.

Lemma step_thread_fails i j p dataset pc e :
  fails w dataset pc e →
  tasks p !! j = Some (dataset, pc)
  ∨ tasks p !! j = Some (dataset, Finished (Raised e)) →
  tasks (step_thread w i p) !! j = Some (dataset, pc)
  ∨ tasks (step_thread w i p) !! j = Some (dataset, Finished (Raised e)).
Proof.
  intros Hf H. rewrite step_thread_lookup. case_decide; [subst|done].
  destruct H as [-> | ->]; simpl; right; [|done].
  by rewrite (step_fails _ _ _ _ Hf).
Qed.

Lemma run_schedule_fails schedule j p dataset pc e :
  fails w dataset pc e →
  tasks p !! j = Some (dataset, pc)
  ∨ tasks p !! j = Some (dataset, Finished (Raised e)) →
  tasks (run_schedule w schedule p) !! j = Some (dataset, pc)
  ∨ tasks (run_schedule w schedule p) !! j
    = Some (dataset, Finished (Raised e)).
Proof.
  intros Hf. revert p; induction schedule as [|i schedule IH]; intros p H;
    [done|].
  simpl. by apply IH, step_thread_fails.
Qed.

(** A task that has come to a fetch, a parse or a write that raises: when
    the block is left its exception is what the task has ended with,
    whatever the other threads did in between. *)
Lemma executor_block_fails before after datasets st j dataset pc e :
  tasks (run_schedule w before (submit datasets st)) !! j
  = Some (dataset, pc) →
  fails w dataset pc e →
  tasks (executor_block w (before ++ after) datasets st) !! j
  = Some (dataset, Finished (Raised e)).
Proof.
  intros H Hf. unfold executor_block. rewrite run_schedule_app.
  pose proof (run_schedule_fails after j _ _ _ _ Hf (or_introl H)) as H1.
  assert (∃ pc1, tasks (run_schedule w after
            (run_schedule w before (submit datasets st))) !! j
          = Some (dataset, pc1)) as [pc1 Hpc1].
  { destruct H1; eauto. }
  destruct (wait_finishes _ j _ _ Hpc1) as [r Hr].
  unfold wait in *. revert Hr.
  generalize (i ← seq 0 (length (tasks (run_schedule w after
    (run_schedule w before (submit datasets st))))); replicate task_steps i).
  intros drain Hr.
  destruct (run_schedule_fails drain j _ _ _ _ Hf H1) as [H2 | H2]; [|done].
  rewrite H2 in Hr. injection Hr as ->. inversion Hf.
Qed.

End pool.

(** ** main: failures of tasks and of the catalogue *)

Section runs.

Import Examples.

Lemma main_listing w schedule st metadata listing :
  load_metadata st = Ok metadata →
  catalog w = Ok (200%Z, Ok listing) →
  let p := executor_block w schedule (hospital_datasets THEME listing)
             (set_metadata metadata st) in
  futures (main w schedule st) = tasks p
  ∧ returned (main w schedule st) = as_completed_results p
  ∧ st_downloads (final (main w schedule st)) = st_downloads (shared p).
Proof.
  intros Hload Hcat p. unfold main. rewrite Hload, Hcat. simpl. fold p.
  destruct (as_completed_results p) as [[]|e]; done.
Qed.

(** C7, as the code has it.  Once the catalogue has been listed, whatever
    the threads' schedule and whatever the requests, the parser and the file
    system answer: [main] has submitted one task per matching dataset and
    every one of them has run to its end, those beside a task that raised
    included; an exception [main] ends with is the exception a task ended
    with, and [main] ends with one whenever a task raised.  Nothing catches
    the exception of a fetch, a parse or a write: the step that raises it is
    the last of the task, and when a task has come to such a step, at
    whatever point of the schedule, the exception is the result of its
    future, whatever the other threads do before and after;
    [future.result()] raises it again in [main]. *)
Theorem failure_stays_in_its_task
    (w : World) (schedule : list nat) (st : State)
    (metadata : Metadata) (listing : list Dataset) :
  load_metadata st = Ok metadata →
  catalog w = Ok (200%Z, Ok listing) →
  let run := main w schedule st in
  let datasets := hospital_datasets THEME listing in
  length (futures run) = length datasets
  ∧ (∀ i dataset, datasets !! i = Some dataset →
       ∃ r, futures run !! i = Some (dataset, Finished r))
  ∧ (∀ e, returned run = Raised e →
       ∃ i dataset, futures run !! i = Some (dataset, Finished (Raised e)))
  ∧ (∀ i dataset e,
       futures run !! i = Some (dataset, Finished (Raised e)) →
       ∃ e', returned run = Raised e')
  ∧ (∀ dataset pc e s n,
       fails w dataset pc e →
       steps (S n) w dataset pc s
       = (Finished (Raised e), (step w dataset pc s).2))
  ∧ (∀ before after i dataset pc e,
       schedule = before ++ after →
       tasks (run_schedule w before
                (submit datasets (set_metadata metadata st))) !! i
       = Some (dataset, pc) →
       fails w dataset pc e →
       futures run !! i = Some (dataset, Finished (Raised e))).
Proof.
  intros Hload Hcat run datasets.
  destruct (main_listing w schedule st metadata listing Hload Hcat)
    as (Hf & Hr & _).
  unfold run. rewrite Hf, Hr. split; [apply executor_block_length|].
  split; [intros i dataset; apply executor_block_finishes|].
  split; [apply as_completed_results_raised|].
  split.
  { intros i dataset e. apply as_completed_results_some.
    apply executor_block_completed. }
  split.
  - intros dataset pc e s n Hfails. cbn [steps].
    pose proof (step_fails w dataset pc e s Hfails) as Hstep.
    destruct (step w dataset pc s) as [pc' s']. simpl in Hstep. subst pc'.
    apply steps_finished.
  - intros before after i dataset pc e -> Hat Hfails.
    by eapply executor_block_fails.
Qed.

Lemma failure_stays_in_its_task_witness :
  (∃ r, futures (main unparsable_first [] fresh) !! 1
        = Some (readmissions, Finished r))
  ∧ futures (main unparsable_first [0; 0; 1] fresh) !! 0
    = Some (general_information, Finished (Raised ParserError)).
Proof.
  split.
  - refine (proj1 (proj2 (failure_stays_in_its_task unparsable_first [] fresh
              {| last_run := Some ∅ |} [general_information; readmissions]
              eq_refl eq_refl)) 1 readmissions _).
    reflexivity.
  - refine (proj2 (proj2 (proj2 (proj2 (proj2
              (failure_stays_in_its_task unparsable_first [0; 0; 1] fresh
                 {| last_run := Some ∅ |}
                 [general_information; readmissions] eq_refl eq_refl)))))
              [0; 0] [1] 0 general_information
              (AtProcess {| status_code := 200; content := "<html>" |})
              ParserError eq_refl _ _).
    + by vm_compute.
    + by apply parse_fails.
Defined.

(** C7 as stated fails: when the body of the first dataset cannot be parsed,
    [download_and_process] does not return a failure, it raises
    [ParserError]; the other task runs to its end and saves its file, and
    [main] then ends with the [ParserError], before its last [print]. *)
Lemma parse_error_leaves_the_task :
  (download_and_process unparsable_first general_information fresh).1
  = Raised ParserError
  ∧ returned (main unparsable_first [] fresh) = Raised ParserError
  ∧ futures (main unparsable_first [] fresh)
    = [(general_information, Finished (Raised ParserError));
       (readmissions, Finished (Ok ()))]
  ∧ st_stdout (final (main unparsable_first [] fresh))
    = [Downloading "Hospitals - General Information";
       Downloading "Readmissions in hospitals";
       Saved "Readmissions in hospitals" "./datasets/43.csv"].
Proof. by vm_compute. Qed.

(** C8, as the code has it.  When the catalogue answers with a status other
    than 200, [main] prints the failure and returns: no task is submitted,
    nothing is requested or written, and, [main] having returned, the exit
    status of the process is 0. *)
Theorem catalog_failure_returns
    (w : World) (schedule : list nat) (st : State)
    (metadata : Metadata) (status : Z) (items : result (list Dataset)) :
  load_metadata st = Ok metadata →
  catalog w = Ok (status, items) →
  status ≠ 200%Z →
  main w schedule st
  = {| returned := Ok ();
       final := print (FailedRetrieve status) (set_metadata metadata st);
       futures := [] |}
  ∧ exit_status (returned (main w schedule st)) = 0%Z
  ∧ st_downloads (final (main w schedule st)) = st_downloads st
  ∧ st_files (final (main w schedule st)) = st_files st
  ∧ st_metadata_file (final (main w schedule st)) = st_metadata_file st.
Proof.
  intros Hload Hcat Hstatus. unfold main. rewrite Hload, Hcat.
  apply Z.eqb_neq in Hstatus. rewrite Hstatus. done.
Qed.

Lemma catalog_failure_returns_witness :
  main catalog_down [] fresh
  = {| returned := Ok ();
       final := print (FailedRetrieve 500)
                  (set_metadata {| last_run := Some ∅ |} fresh);
       futures := [] |}
  ∧ exit_status (returned (main catalog_down [] fresh)) = 0%Z
  ∧ st_downloads (final (main catalog_down [] fresh)) = st_downloads fresh
  ∧ st_files (final (main catalog_down [] fresh)) = st_files fresh
  ∧ st_metadata_file (final (main catalog_down [] fresh))
    = st_metadata_file fresh.
Proof.
  apply (catalog_failure_returns catalog_down [] fresh
           {| last_run := Some ∅ |} 500 (Raised JSONDecodeError));
    [reflexivity | reflexivity | lia].
Defined.

(** C8 as stated fails: the catalogue answers 500 and the exit status is
    0. *)
Lemma catalog_failure_exit_status :
  catalog catalog_down = Ok (500%Z, Raised JSONDecodeError)
  ∧ exit_status (returned (main catalog_down [] fresh)) = 0%Z.
Proof. by vm_compute. Qed.

(** C9, where the code departs from it.  Two tasks, both successful.  The
    first fills its buffer from the dictionary before the second records its
    watermark, and closes the file after the second has closed it: both
    watermarks are in the dictionary of the process, and the file holds the
    first alone. *)
Theorem overtaking_loses_a_watermark :
  let run :=
    main (fine [general_information; readmissions]) overtaking fresh in
  returned run = Ok ()
  ∧ futures run = [(general_information, Finished (Ok ()));
                   (readmissions, Finished (Ok ()))]
  ∧ st_stdout (final run)
    = [Downloading "Readmissions in hospitals";
       Saved "Readmissions in hospitals" "./datasets/43.csv";
       Downloading "Hospitals - General Information";
       Saved "Hospitals - General Information" "./datasets/42.csv";
       Complete]
  ∧ last_run (st_metadata (final run))
    = Some {[ "42" := PDatetime (Datetime 2024 1 2 0 0 0);
              "43" := PDatetime (Datetime 2024 3 1 12 0 0) ]}
  ∧ durable_watermarks (final run)
    = Some {[ "42" := JStr "2024-01-02 00:00:00" ]}.
Proof. by vm_compute. Qed.

(** The same two tasks one after the other: the file holds both
    watermarks. *)
Lemma one_after_the_other_keeps_both :
  durable_watermarks
    (final (main (fine [general_information; readmissions]) [] fresh))
  = Some {[ "42" := JStr "2024-01-02 00:00:00";
            "43" := JStr "2024-03-01 12:00:00" ]}.
Proof. by vm_compute. Qed.

End runs.

(** ** Running twice *)

Section rerun.

Context (w : World) (recorded : gmap string json).

Lemma recorded_raises dataset st j :
  keeps_recorded recorded st → recorded !! id dataset = Some j →
  ∃ e, file_modified_since_last_run dataset (st_metadata st) = Raised e.
Proof.
  intros Hk Hj. unfold file_modified_since_last_run.
  rewrite (Hk _ _ Hj). simpl.
  destruct (strptime (get_last_modified dataset)) as [t|e]; simpl; [|eauto].
  destruct j; simpl; eauto.
Qed.

Lemma step_rerun dataset pc st :
  keeps_recorded recorded st → requests_unrecorded recorded st →
  held_at_check recorded dataset pc →
  keeps_recorded recorded (step w dataset pc st).2
  ∧ requests_unrecorded recorded (step w dataset pc st).2
  ∧ held_at_check recorded dataset (step w dataset pc st).1.
Proof.
  intros Hk Hr Hh. unfold held_at_check in *.
  destruct (recorded !! id dataset) as [j|] eqn:Ej.
  - destruct Hh as [-> | [e ->]]; [by eexists| |].
    + simpl. destruct (recorded_raises dataset st j Hk Ej) as [e ->].
      simpl. split; [done|]. split; [done|]. intros _. eauto.
    + simpl. split; [done|]. split; [done|]. intros _. eauto.
  - assert (∀ pc', is_Some (@None json) → pc' = AtCheck
                    ∨ ∃ e, pc' = Finished (Raised e)) as Hnone.
    { by intros pc' [? [=]]. }
    split; [|split; [|apply Hnone]].
    + destruct pc; simpl; repeat case_match; simplify_eq/=; try done.
      intros k j Hj. unfold record_success in *.
      destruct (last_run (st_metadata st)) as [watermarks|] eqn:El;
        simplify_eq/=.
      rewrite lookup_insert_ne; [|congruence].
      specialize (Hk k j Hj). by rewrite El in Hk.
    + destruct pc; simpl; repeat case_match; simplify_eq/=; try done.
      all: intros d [Hd | ->%list_elem_of_singleton]%elem_of_app;
        [by apply Hr | done].
Qed.

Lemma step_thread_rerun i p :
  rerun_invariant recorded p → rerun_invariant recorded (step_thread w i p).
Proof.
  intros (Hk & Hr & Hh). unfold step_thread.
  destruct (tasks p !! i) as [[dataset pc]|] eqn:E; [|done].
  destruct (is_finished pc); [done|].
  destruct (step_rerun dataset pc (shared p) Hk Hr (Hh _ _ _ E))
    as (Hk' & Hr' & Hh').
  destruct (step w dataset pc (shared p)) as [pc' st']. simpl in *.
  split; [done|]. split; [done|]. intros k d pck Hlook. simpl in Hlook.
  destruct (decide (i = k)) as [->|Hne].
  - rewrite list_lookup_insert_eq in Hlook by (by eapply lookup_lt_Some).
    by simplify_eq.
  - rewrite list_lookup_insert_ne in Hlook by done. by eapply Hh.
Qed.

Lemma run_schedule_rerun schedule p :
  rerun_invariant recorded p →
  rerun_invariant recorded (run_schedule w schedule p).
Proof.
  revert p; induction schedule as [|i schedule IH]; intros p Hp; [done|].
  simpl. by apply IH, step_thread_rerun.
Qed.

Lemma executor_block_rerun schedule datasets st :
  keeps_recorded recorded st → requests_unrecorded recorded st →
  requests_unrecorded recorded
    (shared (executor_block w schedule datasets st)).
Proof.
  intros Hk Hr. unfold executor_block, wait.
  apply run_schedule_rerun, run_schedule_rerun.
  split; [done|]. split; [done|]. intros i dataset pc. unfold submit; simpl.
  rewrite list_lookup_fmap. destruct (datasets !! i); intros; simplify_eq/=.
  intros _. by left.
Qed.

End rerun.

Section two_runs.

Import Examples.

Lemma load_keeps_recorded st metadata :
  load_metadata st = Ok metadata →
  keeps_recorded (default ∅ (durable_watermarks st))
    (set_metadata metadata st).
Proof.
  unfold load_metadata, durable_watermarks, keeps_recorded.
  destruct (st_metadata_file st) as [[|doc]|]; intros [= <-]; simpl.
  - intros k j Hj. destruct (json_last_run doc) as [m|]; simpl in *.
    + by rewrite lookup_fmap, Hj.
    + by rewrite lookup_empty in Hj.
  - intros k j. by rewrite lookup_empty.
Qed.

(** A run that starts with nothing requested requests no dataset that has a
    watermark in the metadata file it starts from. *)
Lemma main_requests_unrecorded w schedule st :
  st_downloads st = [] →
  requests_unrecorded (default ∅ (durable_watermarks st))
    (final (main w schedule st)).
Proof.
  intros Hd.
  assert (∀ m, requests_unrecorded (default ∅ (durable_watermarks st))
                 (set_metadata m st)) as Hstart.
  { intros m dataset. simpl. rewrite Hd. by intros ?%elem_of_nil. }
  unfold main. destruct (load_metadata st) as [metadata|e] eqn:Hload; simpl.
  2: { intros dataset. rewrite Hd. by intros ?%elem_of_nil. }
  destruct (catalog w) as [[status items]|e]; simpl; [|apply Hstart].
  destruct (negb (status =? 200)%Z); simpl; [apply Hstart|].
  destruct items as [datasets|e]; simpl; [|apply Hstart].
  pose proof (executor_block_rerun w _ schedule
    (hospital_datasets THEME datasets) _
    (load_keeps_recorded st metadata Hload) (Hstart metadata)) as H.
  destruct (as_completed_results _) as [[]|e]; simpl; exact H.
Qed.

(** C2, as the code has it.  Two runs in succession against the same
    answers of the network, the second on the files the first left, whatever
    the schedules of the threads: every dataset the second run requests is
    one for which the first run left no watermark in the metadata file.
    (What the second run does with a dataset that has a watermark, other
    than not requesting it, is not part of the statement.) *)
Theorem rerun_requests_only_unrecorded
    (w : World) (first_schedule second_schedule : list nat) (st : State) :
  let first := main w first_schedule st in
  let second := main w second_schedule (next_run (final first)) in
  ∀ dataset, dataset ∈ st_downloads (final second) →
    default ∅ (durable_watermarks (final first)) !! id dataset = None.
Proof.
  intros first second dataset Hd.
  apply (main_requests_unrecorded w second_schedule (next_run (final first)));
    done.
Qed.

Lemma rerun_requests_only_unrecorded_witness :
  default ∅ (durable_watermarks (final (main second_unavailable [] fresh)))
    !! "43" = None.
Proof.
  apply (rerun_requests_only_unrecorded second_unavailable [] [] fresh
           readmissions).
  vm_compute. left.
Defined.

(** C2 as stated fails: the server answers 503 for the second dataset in
    both runs; the first run records the first dataset only, and the second
    run requests the second dataset again. *)
Lemma rerun_requests_again :
  let first := main second_unavailable [] fresh in
  let second := main second_unavailable [] (next_run (final first)) in
  returned first = Ok ()
  ∧ durable_watermarks (final first)
    = Some {[ "42" := JStr "2024-01-02 00:00:00" ]}
  ∧ st_downloads (final second) = [readmissions]
  ∧ st_stdout (final second)
    = [FailedDownload "Readmissions in hospitals" 503].
Proof. by vm_compute. Qed.

(** The second of two runs in which everything succeeds: the watermark read
    from the file is a string, the task raises [TypeError] at line 38 before
    it requests or prints anything, and so does [main]. *)
Lemma second_run_raises :
  let first := main (fine [general_information]) [] fresh in
  let second :=
    main (fine [general_information]) [] (next_run (final first)) in
  returned first = Ok ()
  ∧ durable_watermarks (final first)
    = Some {[ "42" := JStr "2024-01-02 00:00:00" ]}
  ∧ returned second = Raised TypeError
  ∧ futures second = [(general_information, Finished (Raised TypeError))]
  ∧ st_downloads (final second) = []
  ∧ st_stdout (final second) = [].
Proof. by vm_compute. Qed.

End two_runs.

(** * Further properties *)

(** ** to_snake_case: what it keeps and what it drops *)

Section snake_more.

Local Open Scope char_scope.

Lemma alnum_word c : is_alnum c = true → is_word c = true.
Proof. destruct c as [[] [] [] [] [] [] [] []]; vm_compute; congruence. Qed.

Lemma lower_char_alnum c : is_alnum (lower_char c) = is_alnum c.
Proof. by destruct c as [[] [] [] [] [] [] [] []]. Qed.

Lemma canonical_char_cases c :
  is_canonical_char c = true → is_alnum c = true ∨ c = "_".
Proof.
  destruct c as [[] [] [] [] [] [] [] []]; vm_compute; auto; congruence.
Qed.

Lemma upper_not_lower_or_digit c :
  is_upper c = true → is_lower_or_digit c = false.
Proof. destruct c as [[] [] [] [] [] [] [] []]; vm_compute; congruence. Qed.

(** Induction two characters at a time, as [sub_camel] recurses. *)
Lemma pairs_ind (P : list ascii → Prop) :
  P [] → (∀ a, P [a]) →
  (∀ a b rest, P rest → P (b :: rest) → P (a :: b :: rest)) →
  ∀ l, P l.
Proof.
  intros Hnil Hone Hstep l.
  assert (P l ∧ ∀ a, P (a :: l)) as [H _]; [|exact H].
  induction l as [|b l [IH1 IH2]]; [by split|].
  split; [apply IH2|]. intros a. by apply Hstep.
Qed.

Lemma sub_camel_pair a b rest :
  sub_camel (a :: b :: rest)
  = if is_lower_or_digit a && is_upper b
    then a :: "_" :: b :: sub_camel rest
    else a :: sub_camel (b :: rest).
Proof. reflexivity. Qed.

Lemma camel_boundaries_pair a b rest :
  camel_boundaries (a :: b :: rest)
  = (if is_lower_or_digit a && is_upper b then 1 else 0)
    + camel_boundaries (b :: rest).
Proof. reflexivity. Qed.

Lemma sub_camel_letters name :
  letters_and_digits (sub_camel name) = letters_and_digits name.
Proof.
  unfold letters_and_digits.
  induction name as [| |a b rest IH1 IH2] using pairs_ind; [done..|].
  rewrite sub_camel_pair. destruct (is_lower_or_digit a && is_upper b).
  - cbn [List.filter]. rewrite IH1.
    replace (is_alnum "_") with false by done. done.
  - cbn [List.filter]. by rewrite IH2.
Qed.

Lemma sub_nonword_from_letters b name :
  letters_and_digits (sub_nonword_from b name) = letters_and_digits name.
Proof.
  unfold letters_and_digits.
  revert b; induction name as [|c tl IH]; intros b; [done|].
  cbn [sub_nonword_from List.filter]. destruct (is_word c) eqn:Hw.
  - cbn [List.filter]. by rewrite IH.
  - assert (is_alnum c = false) as ->.
    { destruct (is_alnum c) eqn:E; [|done].
      apply alnum_word in E. congruence. }
    destruct b; [apply IH|]. cbn [List.filter].
    replace (is_alnum "_") with false by done. apply IH.
Qed.

Lemma lstrip_underscore_letters name :
  letters_and_digits (lstrip_underscore name) = letters_and_digits name.
Proof.
  unfold letters_and_digits. induction name as [|c tl IH]; [done|].
  cbn [lstrip_underscore]. case_bool_decide; [|done]. subst.
  rewrite IH. done.
Qed.

Lemma rstrip_underscore_letters name :
  letters_and_digits (rstrip_underscore name) = letters_and_digits name.
Proof.
  unfold letters_and_digits. induction name as [|c tl IH]; [done|].
  cbn [rstrip_underscore]. destruct (rstrip_underscore tl) as [|k ks] eqn:E.
  - cbn [List.filter] in *. rewrite <- IH.
    case_bool_decide; subst; [done|]. cbn [List.filter]. done.
  - cbn [List.filter] in *. by rewrite <- IH.
Qed.

Lemma lower_letters name :
  letters_and_digits (lower name) = lower (letters_and_digits name).
Proof.
  unfold letters_and_digits, lower. induction name as [|c tl IH]; [done|].
  cbn [List.filter map]. rewrite lower_char_alnum.
  destruct (is_alnum c); cbn [map]; by rewrite IH.
Qed.

Lemma snake_letters name :
  letters_and_digits (snake name) = lower (letters_and_digits name).
Proof.
  unfold snake, strip_underscore, sub_nonword.
  by rewrite lower_letters, rstrip_underscore_letters,
    lstrip_underscore_letters, sub_nonword_from_letters, sub_camel_letters.
Qed.

Lemma canonical_no_letters name :
  canonical name → letters_and_digits name = [] → name = [].
Proof.
  intros (Hc & Hh & _) Hl. destruct name as [|c tl]; [done|]. exfalso.
  inversion Hc as [|? ? Hcc _]; subst.
  apply canonical_char_cases in Hcc as [Ha | ->].
  - unfold letters_and_digits in Hl. cbn [List.filter] in Hl.
    by rewrite Ha in Hl.
  - by apply Hh.
Qed.

Lemma sub_camel_length name :
  length (sub_camel name) = length name + camel_boundaries name.
Proof.
  induction name as [| |a b rest IH1 IH2] using pairs_ind; [done..|].
  rewrite sub_camel_pair, camel_boundaries_pair.
  destruct (is_lower_or_digit a && is_upper b) eqn:E.
  - apply andb_true_iff in E as [_ Hb]. cbn [length]. rewrite IH1.
    assert (camel_boundaries (b :: rest) = camel_boundaries rest) as ->.
    { destruct rest as [|c rest]; [done|]. rewrite camel_boundaries_pair.
      by rewrite (upper_not_lower_or_digit b Hb). }
    lia.
  - cbn [length]. rewrite IH2. cbn [length]. lia.
Qed.

Lemma letters_and_digits_nil name :
  letters_and_digits name = [] ↔ Forall (λ c, is_alnum c = false) name.
Proof.
  unfold letters_and_digits. induction name as [|c tl IH]; [done|].
  cbn [List.filter]. destruct (is_alnum c) eqn:E.
  - split; [done|]. intros H. inversion H; congruence.
  - rewrite IH. split; [by constructor | by inversion 1].
Qed.

Lemma lower_nil name : lower name = [] → name = [].
Proof. by destruct name. Qed.

Lemma sub_camel_no_boundary name :
  camel_boundaries name = 0 → sub_camel name = name.
Proof.
  induction name as [| |a b rest IH1 IH2] using pairs_ind; [done..|].
  rewrite sub_camel_pair, camel_boundaries_pair.
  destruct (is_lower_or_digit a && is_upper b); [done|].
  intros H. by rewrite IH2.
Qed.

Lemma sub_camel_head name : head (sub_camel name) = head name.
Proof.
  destruct name as [|a [|b rest]]; [done..|]. rewrite sub_camel_pair.
  by destruct (is_lower_or_digit a && is_upper b).
Qed.

Lemma sub_camel_last name : last (sub_camel name) = last name.
Proof.
  induction name as [| |a b rest IH1 IH2] using pairs_ind; [done..|].
  rewrite sub_camel_pair. destruct (is_lower_or_digit a && is_upper b).
  - destruct rest as [|c rest]; [done|].
    change (last (a :: "_" :: b :: sub_camel (c :: rest)))
      with (last (b :: sub_camel (c :: rest))).
    change (last (a :: b :: c :: rest)) with (last (c :: rest)).
    rewrite <- IH1. destruct (sub_camel (c :: rest)) eqn:E; [|done].
    by destruct rest as [|? ?]; [|rewrite sub_camel_pair in E;
      destruct (_ && _) in E].
  - change (last (a :: b :: rest)) with (last (b :: rest)).
    rewrite <- IH2. by destruct (sub_camel (b :: rest)) eqn:E;
      [destruct rest as [|? ?]; [|rewrite sub_camel_pair in E;
        destruct (_ && _) in E]|].
Qed.

Lemma sub_camel_word name :
  Forall (λ c, is_alnum c = true) name →
  Forall (λ c, is_word c = true) (sub_camel name).
Proof.
  induction name as [| |a b rest IH1 IH2] using pairs_ind.
  - done.
  - intros H. inversion H; subst. constructor; [by apply alnum_word|done].
  - intros H. inversion H as [|? ? Ha H']; subst.
    inversion H' as [|? ? Hb H'']; subst. rewrite sub_camel_pair.
    destruct (is_lower_or_digit a && is_upper b).
    + repeat constructor; [by apply alnum_word | by apply alnum_word|].
      by apply IH1.
    + constructor; [by apply alnum_word | by apply IH2].
Qed.

Lemma alnum_not_underscore_ends name :
  Forall (λ c, is_alnum c = true) name →
  head name ≠ Some "_" ∧ last name ≠ Some "_".
Proof.
  intros H. split.
  - destruct name as [|c tl]; [done|]. inversion H; subst.
    intros [= ->]. done.
  - destruct (last name) as [c|] eqn:E; [|done].
    apply last_Some_elem_of in E. rewrite Forall_forall in H.
    specialize (H c E). intros [= ->]. done.
Qed.

(** On a name of letters and digits only the second substitution and
    [strip] change nothing. *)
Lemma snake_alnum name :
  Forall (λ c, is_alnum c = true) name → snake name = lower (sub_camel name).
Proof.
  intros H. unfold snake, strip_underscore.
  rewrite sub_nonword_all_word by by apply sub_camel_word.
  destruct (alnum_not_underscore_ends name H) as [Hh Hl].
  rewrite lstrip_underscore_id by by rewrite sub_camel_head.
  rewrite rstrip_underscore_id by by rewrite sub_camel_last.
  done.
Qed.

Lemma length_string_of_list_ascii (l : list ascii) :
  String.length (string_of_list_ascii l) = length l.
Proof. induction l as [|c l IH]; simpl; [done | by rewrite IH]. Qed.

End snake_more.

(** X1.  Whatever the ASCII name, what [to_snake_case] returns consists of
    lowercase letters, digits and underscores, and neither begins nor ends
    with an underscore. *)
Theorem to_snake_case_output_canonical (s : string) :
  isascii s →
  let out := list_ascii_of_string (to_snake_case s) in
  Forall (λ c, is_lower c = true ∨ is_digit c = true ∨ c = "_"%char) out
  ∧ head out ≠ Some "_"%char ∧ last out ≠ Some "_"%char.
Proof.
  intros _. destruct (to_snake_case_canonical s) as (Hc & Hh & Hl).
  split; [|done]. eapply Forall_impl; [exact Hc|]. intros c. simpl.
  unfold is_canonical_char.
  rewrite !orb_true_iff, bool_decide_eq_true. tauto.
Qed.

Lemma to_snake_case_output_canonical_witness :
  let out := list_ascii_of_string (to_snake_case "_Facility ID (CCN)!") in
  Forall (λ c, is_lower c = true ∨ is_digit c = true ∨ c = "_"%char) out
  ∧ head out ≠ Some "_"%char ∧ last out ≠ Some "_"%char.
Proof.
  apply (to_snake_case_output_canonical "_Facility ID (CCN)!").
  repeat constructor.
Defined.

(** X2.  On an ASCII name [to_snake_case] neither drops nor adds nor
    reorders a letter or a digit: those of the result are those of the name,
    in lowercase. *)
Theorem to_snake_case_keeps_letters_and_digits (s : string) :
  isascii s →
  letters_and_digits (list_ascii_of_string (to_snake_case s))
  = lower (letters_and_digits (list_ascii_of_string s)).
Proof.
  intros _. unfold to_snake_case. rewrite list_ascii_of_string_of_list_ascii.
  apply snake_letters.
Qed.

Lemma to_snake_case_keeps_letters_and_digits_witness :
  letters_and_digits
    (list_ascii_of_string (to_snake_case "Provider_ ID (2024Q1)"))
  = list_ascii_of_string "providerid2024q1".
Proof.
  apply (to_snake_case_keeps_letters_and_digits "Provider_ ID (2024Q1)").
  repeat constructor.
Defined.

(** X3.  For an ASCII name the result is the empty string exactly when the
    name has no letter and no digit (the empty name, and names of
    punctuation, spaces and underscores). *)
Theorem to_snake_case_empty_iff (s : string) :
  isascii s →
  to_snake_case s = ""
  ↔ Forall (λ c, is_alnum c = false) (list_ascii_of_string s).
Proof.
  intros _. rewrite <- letters_and_digits_nil. split.
  - intros H. apply lower_nil. rewrite <- snake_letters.
    unfold to_snake_case in H.
    apply (f_equal list_ascii_of_string) in H.
    rewrite list_ascii_of_string_of_list_ascii in H. by rewrite H.
  - intros H. unfold to_snake_case.
    rewrite (canonical_no_letters (snake (list_ascii_of_string s)));
      [done | apply snake_canonical |].
    by rewrite snake_letters, H.
Qed.

Lemma to_snake_case_empty_iff_witness :
  to_snake_case "_ (-) _" = ""
  ↔ Forall (λ c, is_alnum c = false) (list_ascii_of_string "_ (-) _").
Proof.
  apply (to_snake_case_empty_iff "_ (-) _").
  repeat constructor.
Defined.

(** X4.  The ASCII names [to_snake_case] leaves as they are, are exactly the
    canonical ones. *)
Theorem to_snake_case_fixed_points (s : string) :
  isascii s →
  to_snake_case s = s ↔ canonical (list_ascii_of_string s).
Proof.
  intros _. split.
  - intros H. rewrite <- H. apply to_snake_case_canonical.
  - intros H. unfold to_snake_case. rewrite snake_fixed by done.
    apply string_of_list_ascii_of_string.
Qed.

Lemma to_snake_case_fixed_points_witness :
  to_snake_case "facility_id_2" = "facility_id_2"
  ↔ canonical (list_ascii_of_string "facility_id_2").
Proof.
  apply (to_snake_case_fixed_points "facility_id_2").
  repeat constructor.
Defined.

(** X5.  A name of letters and digits in which no lowercase letter or digit
    is directly followed by an uppercase letter becomes its lowercase
    self. *)
Theorem to_snake_case_plain_name (s : string) :
  Forall (λ c, is_alnum c = true) (list_ascii_of_string s) →
  camel_boundaries (list_ascii_of_string s) = 0 →
  to_snake_case s = string_of_list_ascii (lower (list_ascii_of_string s)).
Proof.
  intros Ha Hb. unfold to_snake_case.
  by rewrite snake_alnum, sub_camel_no_boundary.
Qed.

Lemma to_snake_case_plain_name_witness :
  to_snake_case "ZIP5code" = "zip5code".
Proof.
  apply (to_snake_case_plain_name "ZIP5code"); [|reflexivity].
  repeat constructor.
Defined.

(** X6.  In a name of letters and digits, [to_snake_case] puts exactly one
    underscore at each place where a lowercase letter or a digit is directly
    followed by an uppercase letter, and nothing else: the result is longer
    by the number of these places. *)
Theorem to_snake_case_camel_length (s : string) :
  Forall (λ c, is_alnum c = true) (list_ascii_of_string s) →
  String.length (to_snake_case s)
  = String.length s + camel_boundaries (list_ascii_of_string s).
Proof.
  intros Ha. unfold to_snake_case.
  rewrite <- (string_of_list_ascii_of_string s) at 2.
  rewrite !length_string_of_list_ascii.
  rewrite snake_alnum by done. unfold lower.
  by rewrite length_map, sub_camel_length.
Qed.

Lemma to_snake_case_camel_length_witness :
  String.length (to_snake_case "HospitalOverallRating2024Q1") = 27 + 3.
Proof.
  apply (to_snake_case_camel_length "HospitalOverallRating2024Q1").
  repeat constructor.
Defined.

(** ** The written form of a watermark *)

Section written_form.

Local Open Scope char_scope.

Import Strptime.

Lemma digit_char_digit n : is_digit (digit_char n) = true.
Proof.
  unfold digit_char.
  assert (0 ≤ n mod 10 < 10)%Z as H by (apply Z.mod_pos_bound; lia).
  assert (n mod 10 = 0 ∨ n mod 10 = 1 ∨ n mod 10 = 2 ∨ n mod 10 = 3
          ∨ n mod 10 = 4 ∨ n mod 10 = 5 ∨ n mod 10 = 6 ∨ n mod 10 = 7
          ∨ n mod 10 = 8 ∨ n mod 10 = 9)%Z as Hc by lia.
  by repeat destruct Hc as [-> | Hc]; [..|rewrite Hc].
Qed.

(** A digit is none of the literals of the format. *)
Lemma literal_digit c x rest :
  is_digit x = true → c = "-" ∨ c = "T" ∨ c = ":" →
  literal c (x :: rest) = None.
Proof.
  intros Hx Hc. unfold literal.
  rewrite bool_decide_eq_false_2; [done|].
  destruct x as [[] [] [] [] [] [] [] []]; try discriminate Hx;
    destruct Hc as [-> | [-> | ->]]; by vm_compute.
Qed.

Lemma two_shape p1 p2 a b rest :
  two p1 p2 (a :: b :: rest) = None
  ∨ ∃ v, two p1 p2 (a :: b :: rest) = Some (v, rest).
Proof. unfold two. destruct (p1 a && p2 b); eauto. Qed.

Lemma one_shape p a b rest :
  one p (a :: b :: rest) = None
  ∨ ∃ v, one p (a :: b :: rest) = Some (v, b :: rest).
Proof. unfold one. destruct (p a); eauto. Qed.

Lemma orelse_one_or_two p q :
  one_or_two p → one_or_two q → one_or_two (orelse p q).
Proof.
  intros Hp Hq a b rest Ha. unfold orelse.
  destruct (Hp a b rest Ha) as [-> | [[v ->] | [v ->]]]; eauto.
Qed.

Lemma two_one_or_two p1 p2 : one_or_two (two p1 p2).
Proof. intros a b rest _. destruct (two_shape p1 p2 a b rest); eauto. Qed.

Lemma one_one_or_two p : one_or_two (one p).
Proof. intros a b rest _. destruct (one_shape p a b rest); eauto. Qed.

Lemma space_digit_one_or_two :
  one_or_two (λ s, match s with
                   | " " :: rest => one (between 49 57) rest
                   | _ => None
                   end).
Proof.
  intros a b rest Ha. left.
  by destruct a as [[] [] [] [] [] [] [] []].
Qed.

Lemma directive_m_shape : one_or_two directive_m.
Proof.
  unfold directive_m.
  repeat apply orelse_one_or_two;
    auto using two_one_or_two, one_one_or_two.
Qed.

Lemma directive_d_shape : one_or_two directive_d.
Proof.
  unfold directive_d.
  repeat apply orelse_one_or_two;
    auto using two_one_or_two, one_one_or_two, space_digit_one_or_two.
Qed.

(** Year, month and day in the written form, then a space: the format wants
    a [T] there. *)
Lemma parse_date_then_space y1 y2 y3 y4 m1 m2 d1 d2 rest :
  is_digit m1 = true → is_digit m2 = true →
  is_digit d1 = true → is_digit d2 = true →
  parse (y1 :: y2 :: y3 :: y4 :: "-" :: m1 :: m2 :: "-" :: d1 :: d2
         :: " " :: rest) = None.
Proof.
  intros Hm1 Hm2 Hd1 Hd2. unfold parse.
  destruct (directive_Y _) as [[y s]|] eqn:EY; [|done].
  unfold directive_Y in EY.
  destruct (is_digit y1 && is_digit y2 && is_digit y3 && is_digit y4);
    [|done].
  injection EY as <- <-. cbn [mbind option_bind].
  replace (literal "-" ("-" :: m1 :: m2 :: "-" :: d1 :: d2 :: " " :: rest))
    with (Some (m1 :: m2 :: "-" :: d1 :: d2 :: " " :: rest)) by done.
  cbn [mbind option_bind].
  destruct (directive_m_shape m1 m2 ("-" :: d1 :: d2 :: " " :: rest) Hm1)
    as [-> | [[v ->] | [v ->]]]; cbn [mbind option_bind]; [done| |].
  - replace (literal "-" ("-" :: d1 :: d2 :: " " :: rest))
      with (Some (d1 :: d2 :: " " :: rest)) by done.
    cbn [mbind option_bind].
    destruct (directive_d_shape d1 d2 (" " :: rest) Hd1)
      as [-> | [[v' ->] | [v' ->]]]; cbn [mbind option_bind]; [done..|].
    by rewrite literal_digit by auto.
  - by rewrite literal_digit by auto.
Qed.

End written_form.

(** X7.  What [json.dump(..., default=str)] writes for a watermark is never
    a string that [strptime] accepts with the format of lines 38 and 70:
    for every datetime, parsing its written form raises [ValueError]. *)
Theorem written_watermark_never_parses (d : datetime) :
  strptime (PStr (str_datetime d)) = Raised ValueError.
Proof.
  unfold strptime, str_datetime.
  rewrite list_ascii_of_string_of_list_ascii. unfold pad4, pad2.
  cbn [app]. rewrite parse_date_then_space; auto using digit_char_digit.
Qed.

(** X8.  On metadata read by [json.load], for a dataset whose id has a
    watermark, [file_modified_since_last_run] never returns: it raises
    [TypeError] when [last_modified] is a timestamp, and what [strptime]
    raises otherwise. *)
Theorem reloaded_watermark_raises_exactly
    (dataset : Dataset) (doc : MetadataJson) (j : json) :
  default ∅ (json_last_run doc) !! id dataset = Some j →
  file_modified_since_last_run dataset (json_load doc)
  = match strptime (get_last_modified dataset) with
    | Ok _ => Raised TypeError
    | Raised e => Raised e
    end.
Proof.
  intros Hj. rewrite file_modified_since_last_run_unfold,
    watermark_json_load, Hj. simpl.
  destruct (strptime (get_last_modified dataset)); simpl; [|done].
  apply datetime_gt_of_json.
Qed.

Lemma reloaded_watermark_raises_exactly_witness :
  file_modified_since_last_run Examples.general_information
    (json_load (json_dump Examples.synced_42))
  = Raised TypeError.
Proof.
  exact (reloaded_watermark_raises_exactly Examples.general_information
           (json_dump Examples.synced_42) (JStr "2024-01-01 00:00:00")
           eq_refl).
Defined.

(** ** One call of download_and_process *)

Section one_call.

Context (w : World).

(** X9.  A call touches nothing but its own: the CSV files of other
    datasets and the watermarks of other ids are as before, at most one
    request is made, for the dataset of the call, and the output only
    grows. *)
Theorem download_and_process_frame (dataset : Dataset) (st : State) :
  let st' := (download_and_process w dataset st).2 in
  (∀ path, path ≠ file_path dataset →
     st_files st' !! path = st_files st !! path)
  ∧ (∀ k, k ≠ id dataset →
       default ∅ (last_run (st_metadata st')) !! k
       = default ∅ (last_run (st_metadata st)) !! k)
  ∧ (st_downloads st' = st_downloads st
     ∨ st_downloads st' = st_downloads st ++ [dataset])
  ∧ st_stdout st `prefix_of` st_stdout st'.
Proof.
  unfold download_and_process, record_success.
  split; [|split; [|split]].
  - intros path Hp.
    repeat (case_match; simplify_eq/=; try done); by rewrite lookup_insert_ne.
  - intros k Hk.
    repeat (case_match; simplify_eq/=; try done); by rewrite lookup_insert_ne.
  - repeat (case_match; simplify_eq/=; try done); auto.
  - repeat (case_match; simplify_eq/=; try done);
      rewrite <- ?(assoc_L (++)); try apply prefix_app_r; done.
Qed.

(** X10.  The dictionary changes only in a call that got a 200, parsed the
    body and saved the CSV file with its renamed header; the watermark it
    then holds for the dataset is its [last_modified], parsed. *)
Theorem watermark_only_after_save (dataset : Dataset) (st : State) :
  let st' := (download_and_process w dataset st).2 in
  st_metadata st' ≠ st_metadata st →
  ∃ response df t,
    requests_get w (download_url dataset) = Ok response
    ∧ status_code response = 200%Z
    ∧ read_csv w (content response) = Ok df
    ∧ st_files st' !! file_path dataset = Some (rename_columns df)
    ∧ strptime (get_last_modified dataset) = Ok t
    ∧ watermark dataset (st_metadata st') = Some (PDatetime t).
Proof.
  unfold download_and_process, record_success, watermark.
  repeat (case_match; simplify_eq/=; try done); intros _; eexists _, _, _;
    rewrite ?lookup_insert_eq; repeat split; try done;
    try (by apply Z.eqb_eq); by apply new_watermark_ok.
Qed.

(** X11.  When a call writes the metadata file, the file holds the whole
    dictionary as the call leaves it, the watermark of the dataset in its
    written form included. *)
Theorem metadata_file_written_whole (dataset : Dataset) (st : State) :
  let st' := (download_and_process w dataset st).2 in
  st_metadata_file st' ≠ st_metadata_file st →
  st_metadata_file st' = Some (Document (json_dump (st_metadata st')))
  ∧ ∃ t, strptime (get_last_modified dataset) = Ok t
         ∧ default ∅ (json_last_run (json_dump (st_metadata st')))
             !! id dataset = Some (JStr (str_datetime t)).
Proof.
  unfold download_and_process, record_success.
  repeat (case_match; simplify_eq/=; try done);
    intros _; split; try done; eexists;
    (split; [by apply new_watermark_ok|]);
    by rewrite lookup_fmap, lookup_insert_eq.
Qed.

(** X12.  A dataset without a watermark whose [last_modified] is missing or
    is no timestamp: the predicate lets it through, the CSV file is saved,
    and line 70 then raises, [KeyError] from the subscript
    [dataset['last_modified']] when the key is missing, and otherwise what
    [strptime] raises for the value; neither the dictionary nor the metadata
    file changes. *)
Theorem unparsable_date_saves_then_raises
    (dataset : Dataset) (st : State) (response : Response) (df : Table)
    (e : exn) :
  watermark dataset (st_metadata st) = None →
  requests_get w (download_url dataset) = Ok response →
  status_code response = 200%Z →
  read_csv w (content response) = Ok df →
  writable w (file_path dataset) = true →
  (last_modified dataset = None ∧ e = KeyError)
  ∨ (∃ v, last_modified dataset = Some v ∧ strptime v = Raised e) →
  let '(r, st') := download_and_process w dataset st in
  r = Raised e
  ∧ st_files st' !! file_path dataset = Some (rename_columns df)
  ∧ st_metadata st' = st_metadata st
  ∧ st_metadata_file st' = st_metadata_file st.
Proof.
  intros Hw Hget Hst Hread Hwr Hparse. unfold download_and_process.
  rewrite file_modified_since_last_run_unfold, Hw, Hget, Hst. simpl.
  rewrite Hread, Hwr.
  assert (new_watermark dataset = Raised e) as ->.
  { unfold new_watermark, getitem_last_modified.
    by destruct Hparse as [[-> ->] | (v & -> & Hv)]. }
  simpl. split_and!; try done. apply lookup_insert_eq.
Qed.

(** X13.  A metadata dictionary without the key ['last_run'] (a metadata
    file that holds [{}]): every dataset counts as modified, the CSV file is
    saved, and line 70 raises; nothing is recorded.  The exception is the
    one of the right-hand side when that raises ([KeyError] for a dataset
    without ['last_modified'], what [strptime] raises for a value that is no
    timestamp), and the [KeyError] of [metadata['last_run']] when
    [last_modified] is a timestamp. *)
Theorem missing_last_run_key_raises
    (dataset : Dataset) (st : State) (response : Response) (df : Table) :
  last_run (st_metadata st) = None →
  requests_get w (download_url dataset) = Ok response →
  status_code response = 200%Z →
  read_csv w (content response) = Ok df →
  writable w (file_path dataset) = true →
  let '(r, st') := download_and_process w dataset st in
  (last_modified dataset = None → r = Raised KeyError)
  ∧ (∀ v t, last_modified dataset = Some v → strptime v = Ok t →
       r = Raised KeyError)
  ∧ (∀ v e, last_modified dataset = Some v → strptime v = Raised e →
       r = Raised e)
  ∧ st_files st' !! file_path dataset = Some (rename_columns df)
  ∧ st_metadata st' = st_metadata st
  ∧ st_metadata_file st' = st_metadata_file st.
Proof.
  intros Hl Hget Hst Hread Hwr. unfold download_and_process.
  unfold file_modified_since_last_run, record_success. rewrite Hl. simpl.
  rewrite lookup_empty, Hget, Hst. simpl.
  rewrite Hread, Hwr. unfold new_watermark, getitem_last_modified.
  destruct (last_modified dataset) as [v|]; simpl.
  - destruct (strptime v) as [t|e] eqn:Ev; simpl; rewrite ?Hl;
      split_and!; try done; try apply lookup_insert_eq;
      intros v' x [= <-] Hx; congruence.
  - split_and!; try done. apply lookup_insert_eq.
Qed.

(** X14.  When the header parsed from the body of the dataset is ASCII:
    the CSV file of the dataset after a call is the one that was there
    before, or one the call has written, and then every name of its header
    is canonical, there are as many names as the parsed body has columns,
    and the rows are the parsed ones. *)
Theorem saved_header_canonical (dataset : Dataset) (st : State) (t : Table) :
  (∀ response df,
     requests_get w (download_url dataset) = Ok response →
     read_csv w (content response) = Ok df →
     Forall isascii (columns df)) →
  let st' := (download_and_process w dataset st).2 in
  st_files st' !! file_path dataset = Some t →
  st_files st !! file_path dataset = Some t
  ∨ (Forall (λ column, canonical (list_ascii_of_string column)) (columns t)
     ∧ ∃ response df,
         requests_get w (download_url dataset) = Ok response
         ∧ read_csv w (content response) = Ok df
         ∧ length (columns t) = length (columns df)
         ∧ rows t = rows df).
Proof.
  intros _. unfold download_and_process.
  repeat (case_match; simplify_eq/=; try done);
    rewrite ?lookup_insert_eq; auto; intros [= <-]; right;
    (split; [apply Forall_fmap, Forall_forall; intros c _;
             apply to_snake_case_canonical
            | eexists _, _; split_and!; try done;
              unfold rename_columns; simpl; apply length_fmap]).
Qed.

End one_call.

Section one_call_witnesses.

Import Examples MoreExamples.

Lemma watermark_only_after_save_witness :
  ∃ response df t,
    requests_get (fine []) (download_url general_information) = Ok response
    ∧ status_code response = 200%Z
    ∧ read_csv (fine []) (content response) = Ok df
    ∧ st_files (download_and_process (fine []) general_information ready).2
        !! file_path general_information = Some (rename_columns df)
    ∧ strptime (get_last_modified general_information) = Ok t
    ∧ watermark general_information
        (st_metadata
           (download_and_process (fine []) general_information ready).2)
      = Some (PDatetime t).
Proof.
  apply (watermark_only_after_save (fine []) general_information ready).
  vm_compute. discriminate.
Defined.

Lemma metadata_file_written_whole_witness :
  st_metadata_file (download_and_process (fine []) readmissions ready).2
  = Some (Document (json_dump (st_metadata
            (download_and_process (fine []) readmissions ready).2)))
  ∧ ∃ t, strptime (get_last_modified readmissions) = Ok t
         ∧ default ∅ (json_last_run (json_dump (st_metadata
             (download_and_process (fine []) readmissions ready).2)))
             !! id readmissions = Some (JStr (str_datetime t)).
Proof.
  apply (metadata_file_written_whole (fine []) readmissions ready).
  vm_compute. discriminate.
Defined.

Lemma unparsable_date_saves_then_raises_witness :
  (let '(r, st') := download_and_process (fine []) undated ready in
   r = Raised KeyError
   ∧ st_files st' !! file_path undated = Some (rename_columns table)
   ∧ st_metadata st' = st_metadata ready
   ∧ st_metadata_file st' = st_metadata_file ready)
  ∧ (let '(r, st') := download_and_process (fine []) misdated ready in
     r = Raised ValueError
     ∧ st_files st' !! file_path misdated = Some (rename_columns table)
     ∧ st_metadata st' = st_metadata ready
     ∧ st_metadata_file st' = st_metadata_file ready).
Proof.
  split.
  - apply (unparsable_date_saves_then_raises (fine []) undated ready csv
             table KeyError eq_refl eq_refl eq_refl eq_refl eq_refl).
    left. split; reflexivity.
  - apply (unparsable_date_saves_then_raises (fine []) misdated ready csv
             table ValueError eq_refl eq_refl eq_refl eq_refl eq_refl).
    right. eexists. split; reflexivity.
Defined.

Lemma missing_last_run_key_raises_witness :
  let '(r, st') := download_and_process (fine []) general_information fresh in
  (last_modified general_information = None → r = Raised KeyError)
  ∧ (∀ v t, last_modified general_information = Some v →
       strptime v = Ok t → r = Raised KeyError)
  ∧ (∀ v e, last_modified general_information = Some v →
       strptime v = Raised e → r = Raised e)
  ∧ st_files st' !! file_path general_information
    = Some (rename_columns table)
  ∧ st_metadata st' = st_metadata fresh
  ∧ st_metadata_file st' = st_metadata_file fresh.
Proof.
  exact (missing_last_run_key_raises (fine []) general_information fresh csv
           table eq_refl eq_refl eq_refl eq_refl eq_refl).
Defined.

Lemma saved_header_canonical_witness :
  st_files ready !! file_path general_information
  = Some (rename_columns table)
  ∨ (Forall (λ column, canonical (list_ascii_of_string column))
       (columns (rename_columns table))
     ∧ ∃ response df,
         requests_get (fine []) (download_url general_information)
         = Ok response
         ∧ read_csv (fine []) (content response) = Ok df
         ∧ length (columns (rename_columns table)) = length (columns df)
         ∧ rows (rename_columns table) = rows df).
Proof.
  apply (saved_header_canonical (fine []) general_information ready
           (rename_columns table)).
  - intros response df _ [= <-]. repeat constructor.
  - by vm_compute.
Defined.

End one_call_witnesses.

(** ** A whole run, under every schedule *)

Section requests.

Context (w : World).

Lemma step_downloads dataset pc st :
  let r := step w dataset pc st in
  (st_downloads r.2 = st_downloads st
   ∧ (before_request r.1 = true → before_request pc = true))
  ∨ (st_downloads r.2 = st_downloads st ++ [dataset]
     ∧ before_request pc = true ∧ before_request r.1 = false).
Proof.
  destruct pc; simpl; repeat (case_match; simplify_eq/=; try done); auto.
Qed.

Lemma step_metadata dataset pc st :
  st_metadata (step w dataset pc st).2 = st_metadata st
  ∨ ∃ t watermarks,
      strptime (get_last_modified dataset) = Ok t
      ∧ last_run (st_metadata st) = Some watermarks
      ∧ st_metadata (step w dataset pc st).2
        = {| last_run := Some (<[id dataset := PDatetime t]> watermarks) |}.
Proof.
  destruct pc; simpl; unfold record_success;
    repeat (case_match; simplify_eq/=; try done); auto.
  all: right; eexists _, _; split_and!; try done; by apply new_watermark_ok.
Qed.

Lemma pending_insert (l : list (Dataset * Task)) i x y :
  l !! i = Some x →
  pending (<[i := y]> l) + (if before_request x.2 then 1 else 0)
  = pending l + (if before_request y.2 then 1 else 0).
Proof.
  unfold pending. revert i; induction l as [|z l IH]; intros [|i] H;
    simplify_eq/=.
  - destruct (before_request x.2), (before_request y.2); simpl; lia.
  - specialize (IH i H).
    destruct (before_request z.2); simpl; lia.
Qed.

Lemma step_thread_requested_submitted i p :
  requested_submitted p → requested_submitted (step_thread w i p).
Proof.
  intros Hp d Hd.
  assert (d ∈ st_downloads (shared p)
          ∨ ∃ pc, tasks p !! i = Some (d, pc)) as [Hin | [pc Hpc]].
  { revert Hd. unfold step_thread.
    destruct (tasks p !! i) as [[dataset pc]|] eqn:E; [|auto].
    destruct (is_finished pc); [auto|].
    pose proof (step_downloads dataset pc (shared p)) as Hs.
    destruct (step w dataset pc (shared p)) as [pc' st']. simpl in *.
    destruct Hs as [[-> _] | [-> _]]; [auto|].
    intros [? | ->%list_elem_of_singleton]%elem_of_app; eauto. }
  - destruct (Hp d Hin) as (j & pc & Hj).
    destruct (step_thread_dataset w i j p d pc Hj) as (pc' & H' & _).
    eauto.
  - destruct (step_thread_dataset w i i p d pc Hpc) as (pc' & H' & _).
    eauto.
Qed.

Lemma step_thread_requested_once i p :
  requested_once p → requested_once (step_thread w i p).
Proof.
  unfold requested_once, step_thread.
  destruct (tasks p !! i) as [[dataset pc]|] eqn:E; [|done].
  destruct (is_finished pc); [done|].
  pose proof (step_downloads dataset pc (shared p)) as Hs.
  destruct (step w dataset pc (shared p)) as [pc' st']. simpl in *.
  pose proof (pending_insert (tasks p) i (dataset, pc) (dataset, pc') E)
    as Hins. simpl in Hins. rewrite length_insert.
  destruct Hs as [[-> Hb] | (-> & Hb & Hb')].
  - destruct (before_request pc'), (before_request pc);
      try (by discriminate Hb); lia.
  - rewrite Hb, Hb' in Hins. rewrite length_app. simpl. lia.
Qed.

Lemma step_thread_watermarks_from loaded i p :
  watermarks_from loaded p → watermarks_from loaded (step_thread w i p).
Proof.
  intros Hp k v Hv.
  assert (default ∅ (last_run (st_metadata (shared p))) !! k = Some v
          ∨ ∃ dataset pc t, tasks p !! i = Some (dataset, pc)
              ∧ id dataset = k ∧ strptime (get_last_modified dataset) = Ok t
              ∧ v = PDatetime t) as [Hold | (d & pc & t & Hd & Hk & Ht & ->)].
  { revert Hv. unfold step_thread.
    destruct (tasks p !! i) as [[dataset pc]|] eqn:E; [|auto].
    destruct (is_finished pc); [auto|].
    pose proof (step_metadata dataset pc (shared p)) as Hs.
    destruct (step w dataset pc (shared p)) as [pc' st']. simpl in *.
    destruct Hs as [-> | (t & wm & Ht & Hwm & ->)]; [auto|]. simpl.
    destruct (decide (id dataset = k)) as [<- | Hne].
    - rewrite lookup_insert_eq. intros [= <-]. right. by eexists _, _, _.
    - rewrite lookup_insert_ne by done. rewrite Hwm. auto. }
  - destruct (Hp k v Hold) as [? | (j & d & pc & t & Hj & ? & ? & ?)];
      [by left|]. right.
    destruct (step_thread_dataset w i j p d pc Hj) as (pc' & H' & _).
    by eexists _, _, _, _.
  - right. destruct (step_thread_dataset w i i p d pc Hd) as (pc' & H' & _).
    by eexists _, _, _, _.
Qed.

Lemma step_thread_keeps_keys loaded i p :
  keeps_keys loaded (shared p) →
  keeps_keys loaded (shared (step_thread w i p)).
Proof.
  intros Hp k Hk. specialize (Hp k Hk). unfold step_thread.
  destruct (tasks p !! i) as [[dataset pc]|] eqn:E; [|done].
  destruct (is_finished pc); [done|].
  pose proof (step_metadata dataset pc (shared p)) as Hs.
  destruct (step w dataset pc (shared p)) as [pc' st']. simpl in *.
  destruct Hs as [-> | (t & wm & Ht & Hwm & ->)]; [done|]. simpl.
  rewrite Hwm in Hp. simpl in Hp.
  destruct (decide (id dataset = k)) as [<- | Hne].
  - rewrite lookup_insert_eq. eauto.
  - by rewrite lookup_insert_ne.
Qed.

(** What holds after a step of any thread holds when the block is left. *)
Lemma executor_block_invariant (I : Pool → Prop) schedule datasets st :
  (∀ i p, I p → I (step_thread w i p)) →
  I (submit datasets st) →
  I (executor_block w schedule datasets st).
Proof.
  intros Hstep H0. unfold executor_block, wait.
  assert (∀ schedule p, I p → I (run_schedule w schedule p)) as Hrun.
  { clear -Hstep. intros schedule'.
    induction schedule' as [|i schedule' IH]; intros p Hp; [done|].
    simpl. by apply IH, Hstep. }
  by apply Hrun, Hrun.
Qed.

(** What holds of the state and the tasks wherever [main] can end holds of
    what [main] leaves. *)
Lemma main_ends (Q : State → list (Dataset * Task) → Prop) schedule st :
  (∀ e, load_metadata st = Raised e → Q st []) →
  (∀ metadata, load_metadata st = Ok metadata →
     Q (set_metadata metadata st) []
     ∧ ∀ status, Q (print (FailedRetrieve status) (set_metadata metadata st))
                   []) →
  (∀ metadata listing,
     load_metadata st = Ok metadata →
     catalog w = Ok (200%Z, Ok listing) →
     let p := executor_block w schedule (hospital_datasets THEME listing)
                (set_metadata metadata st) in
     Q (shared p) (tasks p) ∧ Q (print Complete (shared p)) (tasks p)) →
  Q (final (main w schedule st)) (futures (main w schedule st)).
Proof.
  intros Hraise Hearly Hblock. unfold main.
  destruct (load_metadata st) as [metadata|e] eqn:Hload;
    [|by apply (Hraise e)].
  destruct (Hearly metadata eq_refl) as [H1 H2].
  destruct (catalog w) as [[status items]|e] eqn:Hcat; [|done].
  destruct (status =? 200)%Z eqn:Hs; simpl; [|apply H2].
  apply Z.eqb_eq in Hs as ->.
  destruct items as [listing|e]; [|done].
  destruct (Hblock metadata listing eq_refl eq_refl) as [H3 H4].
  by destruct (as_completed_results _) as [[]|e].
Qed.

Lemma executor_block_task schedule datasets st i dataset pc :
  tasks (executor_block w schedule datasets st) !! i = Some (dataset, pc) →
  datasets !! i = Some dataset.
Proof.
  intros H. assert (i < length datasets) as Hi.
  { rewrite <- (executor_block_length w schedule datasets st).
    by eapply lookup_lt_Some. }
  apply lookup_lt_is_Some in Hi as [d Hd].
  destruct (executor_block_finishes w schedule datasets st i d Hd) as [r Hr].
  congruence.
Qed.

(** X15.  In a run that starts with nothing requested, under every schedule:
    a dataset is requested only if the catalogue answered 200, the dataset
    is in its listing and its name contains the theme, case ignored. *)
Theorem main_requests_only_matching
    (schedule : list nat) (st : State) (dataset : Dataset) :
  st_downloads st = [] →
  dataset ∈ st_downloads (final (main w schedule st)) →
  contains_ignoring_case THEME (name dataset)
  ∧ ∃ listing, catalog w = Ok (200%Z, Ok listing) ∧ dataset ∈ listing.
Proof.
  intros Hd. revert dataset.
  apply (main_ends (λ st' _, ∀ dataset, dataset ∈ st_downloads st' → _)).
  - intros e _ dataset. rewrite Hd. by intros ?%elem_of_nil.
  - intros metadata _. split; [|intros status]; intros dataset; simpl;
      rewrite Hd; by intros ?%elem_of_nil.
  - intros metadata listing _ Hcat p.
    assert (requested_submitted p) as Hp.
    { apply executor_block_invariant;
        [apply step_thread_requested_submitted|].
      intros dataset. simpl. rewrite Hd. by intros ?%elem_of_nil. }
    assert (∀ dataset, dataset ∈ st_downloads (shared p) →
              contains_ignoring_case THEME (name dataset)
              ∧ ∃ listing, catalog w = Ok (200%Z, Ok listing)
                           ∧ dataset ∈ listing) as H.
    { intros dataset (i & pc & Hi)%Hp.
      apply executor_block_task, list_elem_of_lookup_2 in Hi.
      apply list_elem_of_In, filter_In in Hi as [Hin Hm].
      split; [by apply matches_theme_spec|].
      exists listing. split; [done | by apply list_elem_of_In]. }
    by split.
Qed.

(** X16.  A single attempt per task: in a run that starts with nothing
    requested, under every schedule, there are at most as many requests for
    datasets as tasks were submitted. *)
Theorem main_requests_once_per_task (schedule : list nat) (st : State) :
  st_downloads st = [] →
  length (st_downloads (final (main w schedule st)))
  ≤ length (futures (main w schedule st)).
Proof.
  intros Hd.
  apply (main_ends (λ st' fs, length (st_downloads st') ≤ length fs)).
  - intros e _. by rewrite Hd.
  - intros metadata _. split; [|intros status]; simpl; by rewrite Hd.
  - intros metadata listing _ _ p.
    assert (requested_once p) as Hp.
    { apply executor_block_invariant; [apply step_thread_requested_once|].
      unfold requested_once, submit, pending. simpl. rewrite Hd. simpl.
      apply filter_length_le. }
    unfold requested_once in Hp. simpl. split; lia.
Qed.

(** X17.  Under every schedule, a watermark in the dictionary when [main]
    ends is the one that was loaded for its id, or the parsed
    [last_modified] of a submitted dataset with this id. *)
Theorem main_watermarks_provenance
    (schedule : list nat) (st : State) (metadata : Metadata)
    (k : string) (v : pyval) :
  load_metadata st = Ok metadata →
  let run := main w schedule st in
  default ∅ (last_run (st_metadata (final run))) !! k = Some v →
  default ∅ (last_run metadata) !! k = Some v
  ∨ ∃ i dataset pc t,
      futures run !! i = Some (dataset, pc) ∧ id dataset = k
      ∧ strptime (get_last_modified dataset) = Ok t ∧ v = PDatetime t.
Proof.
  intros Hload. simpl. revert k v.
  apply (main_ends (λ st' fs, ∀ k v,
    default ∅ (last_run (st_metadata st')) !! k = Some v →
    default ∅ (last_run metadata) !! k = Some v
    ∨ ∃ i dataset pc t, fs !! i = Some (dataset, pc) ∧ id dataset = k
        ∧ strptime (get_last_modified dataset) = Ok t ∧ v = PDatetime t)).
  - intros e. congruence.
  - intros m Hm. assert (m = metadata) as -> by congruence.
    split; [|intros status]; simpl; auto.
  - intros m listing Hm _ p. assert (m = metadata) as -> by congruence.
    assert (watermarks_from metadata p) as Hp.
    { apply executor_block_invariant;
        [apply step_thread_watermarks_from|].
      intros k v. simpl. auto. }
    by split.
Qed.

(** X18.  Under every schedule, the dictionary never loses an id during a
    run: an id that had a watermark when the metadata were loaded has one
    when [main] ends. *)
Theorem main_keeps_watermark_keys
    (schedule : list nat) (st : State) (metadata : Metadata) (k : string) :
  load_metadata st = Ok metadata →
  is_Some (default ∅ (last_run metadata) !! k) →
  is_Some (default ∅ (last_run (st_metadata (final (main w schedule st))))
             !! k).
Proof.
  intros Hload. revert k.
  apply (main_ends (λ st' _, keeps_keys metadata st')).
  - intros e. congruence.
  - intros m Hm. assert (m = metadata) as -> by congruence.
    split; [|intros status]; by intros k.
  - intros m listing Hm _ p. assert (m = metadata) as -> by congruence.
    assert (keeps_keys metadata (shared p)) as Hp.
    { apply (executor_block_invariant
               (λ p, keeps_keys metadata (shared p)));
        [apply step_thread_keeps_keys|]. by intros k. }
    by split.
Qed.

(** *** The tasks one after the other *)

Lemma download_and_process_in_step file loaded dataset st :
  writable w METADATA_FILE = true →
  in_step file loaded st →
  in_step file loaded (download_and_process w dataset st).2.
Proof.
  intros Hw H. unfold download_and_process, in_step in *.
  repeat (case_match; simplify_eq/=; try done); auto.
Qed.

Lemma run_replicate_other n i j p :
  i ≠ j →
  tasks (run_schedule w (replicate n i) p) !! j = tasks p !! j.
Proof.
  intros Hne. revert p; induction n as [|n IH]; intros p; [done|].
  simpl. by rewrite IH, step_thread_other.
Qed.

(** A thread that runs alone takes the steps of its task. *)
Lemma run_replicate_steps n i p dataset pc :
  tasks p !! i = Some (dataset, pc) →
  shared (run_schedule w (replicate n i) p)
  = (steps n w dataset pc (shared p)).2.
Proof.
  revert p pc; induction n as [|n IH]; intros p pc H; [done|].
  cbn [replicate run_schedule foldl steps].
  change (foldl _ ?q (replicate n i)) with (run_schedule w (replicate n i) q).
  unfold step_thread at 1. rewrite H.
  destruct (is_finished pc) eqn:F.
  - apply is_finished_true in F as [r ->]. simpl.
    rewrite (IH p (Finished r) H). by rewrite !steps_finished.
  - destruct (step w dataset pc (shared p)) as [pc' st'] eqn:S.
    erewrite IH; [done|]. simpl.
    apply list_lookup_insert_eq. by eapply lookup_lt_Some.
Qed.

Lemma run_replicate_none n i p :
  tasks p !! i = None → run_schedule w (replicate n i) p = p.
Proof.
  intros H. induction n as [|n IH]; [done|].
  cbn [replicate run_schedule foldl]. unfold step_thread at 2. rewrite H.
  exact IH.
Qed.

(** A task that runs from its start to its end while the others are not
    under way leaves them so, and is not under way itself afterwards. *)
Lemma run_block_idle i p :
  (∀ j d pc, tasks p !! j = Some (d, pc) → idle pc = true) →
  ∀ j d pc,
    tasks (run_schedule w (replicate task_steps i) p) !! j = Some (d, pc) →
    idle pc = true.
Proof.
  intros Hp j d pc H. destruct (decide (i = j)) as [->|Hne].
  - assert (is_Some (tasks p !! j)) as [[d0 pc0] H0].
    { apply lookup_lt_is_Some.
      rewrite <- (run_schedule_length w (replicate task_steps j) p).
      by eapply lookup_lt_Some. }
    destruct (run_replicate_finishes w task_steps j p d0 pc0 H0
                (remaining_bound pc0)) as [r Hr].
    rewrite Hr in H. by simplify_eq.
  - rewrite run_replicate_other in H by done. by eapply Hp.
Qed.

Lemma run_block_in_step file loaded i p :
  writable w METADATA_FILE = true →
  (∀ j d pc, tasks p !! j = Some (d, pc) → idle pc = true) →
  in_step file loaded (shared p) →
  in_step file loaded (shared (run_schedule w (replicate task_steps i) p)).
Proof.
  intros Hw Hidle Hp. destruct (tasks p !! i) as [[d pc]|] eqn:E.
  - rewrite (run_replicate_steps _ _ _ d pc E).
    specialize (Hidle i d pc E).
    destruct pc; try done.
    rewrite steps_download_and_process. simpl.
    by apply download_and_process_in_step.
  - by rewrite run_replicate_none.
Qed.

Lemma in_turn_cons i order :
  in_turn (i :: order) = replicate task_steps i ++ in_turn order.
Proof. reflexivity. Qed.

Lemma run_in_turn_in_step file loaded (order : list nat) p :
  writable w METADATA_FILE = true →
  (∀ j d pc, tasks p !! j = Some (d, pc) → idle pc = true) →
  in_step file loaded (shared p) →
  in_step file loaded (shared (run_schedule w (in_turn order) p))
  ∧ ∀ j d pc,
      tasks (run_schedule w (in_turn order) p) !! j = Some (d, pc) →
      idle pc = true.
Proof.
  intros Hw. revert p; induction order as [|i order IH];
    intros p Hidle Hp; [done|].
  rewrite in_turn_cons, run_schedule_app.
  apply IH; [by apply run_block_idle | by apply run_block_in_step].
Qed.

(** X19.  When the tasks run one after the other, in whatever order (each
    task of [order] takes all its steps before the next takes one; the tasks
    that [order] leaves out run in the order of the listing when the block
    is left), and the metadata file can be written: the file and the
    dictionary are in step when [main] ends, that is, either nothing was
    recorded in the run, or the file holds every watermark of the
    dictionary. *)
Theorem tasks_in_turn_keep_file_in_step
    (order : list nat) (st : State) (metadata : Metadata) :
  load_metadata st = Ok metadata →
  writable w METADATA_FILE = true →
  let st' := final (main w (in_turn order) st) in
  (st_metadata_file st' = st_metadata_file st ∧ st_metadata st' = metadata)
  ∨ st_metadata_file st' = Some (Document (json_dump (st_metadata st'))).
Proof.
  intros Hload Hw.
  apply (main_ends (λ st' _, in_step (st_metadata_file st) metadata st')).
  - intros e. congruence.
  - intros m Hm. assert (m = metadata) as -> by congruence.
    split; [|intros status]; by left.
  - intros m listing Hm _ p. assert (m = metadata) as -> by congruence.
    assert (in_step (st_metadata_file st) metadata (shared p)) as Hp.
    { unfold p, executor_block, wait.
      destruct (run_in_turn_in_step (st_metadata_file st) metadata order
                  (submit (hospital_datasets THEME listing)
                     (set_metadata metadata st)) Hw) as [Hs Hidle].
      - intros j d pc. unfold submit. simpl. rewrite list_lookup_fmap.
        destruct (_ !! j); intros; by simplify_eq/=.
      - by left.
      - by apply run_in_turn_in_step. }
    split; [done|]. exact Hp.
Qed.

End requests.

Section run_witnesses.

Import Examples MoreExamples.

Lemma main_requests_only_matching_witness :
  contains_ignoring_case THEME (name readmissions)
  ∧ ∃ l, catalog (fine listing) = Ok (200%Z, Ok l) ∧ readmissions ∈ l.
Proof.
  apply (main_requests_only_matching (fine listing) [1; 0; 0] fresh
           readmissions eq_refl).
  vm_compute. right. left.
Defined.

Lemma main_requests_once_per_task_witness :
  length (st_downloads (final (main second_unavailable [1; 0; 1] fresh)))
  ≤ length (futures (main second_unavailable [1; 0; 1] fresh)).
Proof.
  exact (main_requests_once_per_task second_unavailable [1; 0; 1] fresh
           eq_refl).
Defined.

Lemma main_watermarks_provenance_witness :
  default ∅ {| last_run := Some ∅ |}.(last_run) !! "43"
  = Some (PDatetime (Datetime 2024 3 1 12 0 0))
  ∨ ∃ i dataset pc t,
      futures (main (fine listing) overtaking fresh) !! i
      = Some (dataset, pc)
      ∧ id dataset = "43"
      ∧ strptime (get_last_modified dataset) = Ok t
      ∧ PDatetime (Datetime 2024 3 1 12 0 0) = PDatetime t.
Proof.
  apply (main_watermarks_provenance (fine listing) overtaking fresh
           {| last_run := Some ∅ |} "43"
           (PDatetime (Datetime 2024 3 1 12 0 0)) eq_refl).
  by vm_compute.
Defined.

Lemma main_keeps_watermark_keys_witness :
  is_Some
    (default ∅
       (last_run (st_metadata
          (final (main (fine listing) [0; 1] second_start)))) !! "42").
Proof.
  apply (main_keeps_watermark_keys (fine listing) [0; 1] second_start
           (json_load (json_dump
              {| last_run :=
                   Some {[ "42" := PDatetime (Datetime 2024 1 2 0 0 0) ]}
              |}))).
  - by vm_compute.
  - vm_compute. eauto.
Defined.

Lemma tasks_in_turn_keep_file_in_step_witness :
  (st_metadata_file (final (main (fine listing) (in_turn [1; 0]) fresh))
   = st_metadata_file fresh
   ∧ st_metadata (final (main (fine listing) (in_turn [1; 0]) fresh))
     = {| last_run := Some ∅ |})
  ∨ st_metadata_file (final (main (fine listing) (in_turn [1; 0]) fresh))
    = Some (Document (json_dump
              (st_metadata
                 (final (main (fine listing) (in_turn [1; 0]) fresh))))).
Proof.
  exact (tasks_in_turn_keep_file_in_step (fine listing) [1; 0] fresh
           {| last_run := Some ∅ |} eq_refl eq_refl).
Defined.

End run_witnesses.
